(** * disable_inactive_users.py: inactivity classification and batch dispatch

    A shallow embedding of [scripts/disable_inactive_users.py] and the
    properties of its pipeline: response decoding, timestamp handling,
    last-login selection, threshold classification, batching and the
    response-code policy of the bulk dispatch.

    Python values decoded from JSON are kept dynamically typed ([json]);
    an operation that Python rejects at run time raises the exception the
    interpreter raises.  Pure functions return [result]; functions that
    talk to the network or print return a trace of events together with
    their result ([io]). *)

From Stdlib Require Import ZArith String Ascii List Lia Bool.
From stdpp Require Import base option list gmap strings.

Set Warnings "-register-all".

Open Scope string_scope.
Open Scope list_scope.
Open Scope Z_scope.

(** ** Python values and exceptions *)

(** Values produced by [resp.json()].  A JSON object is a [dict] with
    string keys.  Numbers are carried as integers: the script only ever
    tests a number for truthiness and for not being a string, list or
    dict, so a float is represented by an integer that is zero exactly
    when the float is. *)
Inductive json : Type :=
| JNull
| JBool (b : bool)
| JNum (n : Z)
| JStr (s : string)
| JList (l : list json)
| JObj (o : gmap string json).

(** The exceptions the script can meet.  [SystemExit] is what [sys.exit]
    raises; the others are never caught by the script, except
    [ValueError] inside [parse_ts]. *)
Inductive exn : Type :=
| SystemExit (code : Z)
| AttributeError
| TypeError
| ValueError
| OverflowError
| JSONDecodeError
| RequestException.

Inductive result (A : Type) : Type :=
| Ok (a : A)
| Raise (e : exn).
Arguments Ok {A} a.
Arguments Raise {A} e.

#[global] Instance result_ret : MRet result := fun A a => Ok a.
#[global] Instance result_bind : MBind result := fun A B f m =>
  match m with
  | Ok a => f a
  | Raise e => Raise e
  end.

(** [for x in xs: acc = body(acc, x)], stopping at the first exception. *)
Fixpoint for_each {A B : Type} (body : B → A → result B) (acc : B) (xs : list A)
  : result B :=
  match xs with
  | [] => Ok acc
  | x :: rest => acc' ← body acc x; for_each body acc' rest
  end.

(** Truth value testing: [None], [False], zero, and empty strings, lists
    and dicts are false. *)
Definition truthy (v : json) : bool :=
  match v with
  | JNull => false
  | JBool b => b
  | JNum n => negb (n =? 0)
  | JStr s => negb (String.eqb s "")
  | JList l => match l with [] => false | _ => true end
  | JObj o => negb (bool_decide (o = ∅))
  end.

(** [a or b]. *)
Definition py_or (a b : json) : json := if truthy a then a else b.

(** [v.get(key)]: only a dict has [get]; a missing key gives [None]. *)
Definition py_get (v : json) (key : string) : result json :=
  match v with
  | JObj o => Ok (default JNull (o !! key))
  | _ => Raise AttributeError
  end.

(** [isinstance(v, list)]. *)
Definition is_list (v : json) : bool :=
  match v with JList _ => true | _ => false end.

(** [v != s] for a string [s]: values of different types are unequal. *)
Definition differs_from_str (v : json) (s : string) : bool :=
  match v with
  | JStr s' => negb (String.eqb s' s)
  | _ => true
  end.

(** [for entry in v]: a list yields its elements, a dict its keys, a
    string its characters; other values are not iterable. *)
Definition py_iter (v : json) : result (list json) :=
  match v with
  | JList l => Ok l
  | JObj o => Ok (map (fun kv => JStr (fst kv)) (map_to_list o))
  | JStr s => Ok (map (fun c => JStr (String c EmptyString)) (list_ascii_of_string s))
  | _ => Raise TypeError
  end.

(** [str.lower()] on the ASCII letters.  The script only compares the
    result with the ASCII literal ["disabled"], and no non-ASCII
    character lowercases to one of its letters, so the comparison has
    the same outcome as with Python's Unicode-aware [lower]. *)
Definition lower_ascii (c : ascii) : ascii :=
  let n := nat_of_ascii c in
  if ((65 <=? n) && (n <=? 90))%nat then ascii_of_nat (n + 32) else c.

Fixpoint lower (s : string) : string :=
  match s with
  | EmptyString => EmptyString
  | String c rest => String (lower_ascii c) (lower rest)
  end.

(** [v.lower()]: only strings have the method. *)
Definition py_lower (v : json) : result string :=
  match v with
  | JStr s => Ok (lower s)
  | _ => Raise AttributeError
  end.

(** ** Dates and times *)

(** A [datetime.datetime]: the wall-clock reading in microseconds since
    0001-01-01T00:00:00 and, when the value is timezone-aware, the UTC
    offset of that reading in microseconds. *)
Record datetime : Type := Datetime { wall : Z; tzinfo : option Z }.

(** A timezone-aware [datetime].  Every value the script compares is of
    this kind: [parse_ts] attaches UTC to naive readings, and [now] is
    taken in UTC. *)
Record aware : Type := Aware { aware_wall : Z; utcoffset : Z }.

(** The point in time an aware value denotes, in microseconds of UTC. *)
Definition instant (t : aware) : Z := aware_wall t - utcoffset t.

(** [a <= b] and [a > b] on aware values compare the instants. *)
Definition aware_le (a b : aware) : bool := instant a <=? instant b.
Definition aware_gt (a b : aware) : bool := instant b <? instant a.

Definition US_PER_DAY : Z := 86400000000.

(** [timedelta.max.days]. *)
Definition MAX_DELTA_DAYS : Z := 999999999.

(** Microseconds between [datetime.min] and the end of year 9999
    ([date.max.toordinal()] is 3652059). *)
Definition DATETIME_SPAN : Z := 3652059 * US_PER_DAY.

(** [dt.timedelta(days=d)] as a number of microseconds. *)
Definition timedelta_days (d : Z) : result Z :=
  if MAX_DELTA_DAYS <? Z.abs d then Raise OverflowError else Ok (d * US_PER_DAY).

(** [t - delta]: the wall clock is shifted and the offset kept; a result
    outside years 1..9999 is an [OverflowError]. *)
Definition datetime_sub (t : aware) (delta : Z) : result aware :=
  let w := aware_wall t - delta in
  if (0 <=? w) && (w <? DATETIME_SPAN)
  then Ok {| aware_wall := w; utcoffset := utcoffset t |}
  else Raise OverflowError.

(** [now - dt.timedelta(days=days_inactive)] for a reading [now] of the
    UTC clock. *)
Definition threshold_of (now days_inactive : Z) : result aware :=
  delta ← timedelta_days days_inactive;
  datetime_sub {| aware_wall := now; utcoffset := 0 |} delta.

(** [max(candidates) if candidates else None]: the first greatest
    element. *)
Fixpoint max_from (best : aware) (rest : list aware) : aware :=
  match rest with
  | [] => best
  | t :: rest' => max_from (if aware_gt t best then t else best) rest'
  end.

Definition py_max (candidates : list aware) : option aware :=
  match candidates with
  | [] => None
  | t :: rest => Some (max_from t rest)
  end.

(** ** A parser instance for [datetime.fromisoformat]

    The script delegates the reading of timestamps to the interpreter's
    [datetime.fromisoformat]; the embedding takes that function as a
    parameter (section [Pipeline] below).  [iso_basic] is an instance of
    the parameter for running the model on concrete inventories.  It
    reads [YYYY-MM-DD], [YYYY-MM-DDTHH:MM:SS] and
    [YYYY-MM-DDTHH:MM:SS+HH:MM] (or [-HH:MM]), shapes that every
    interpreter version the script supports reads the same way, and
    rejects every other string; the interpreter reads further shapes. *)

Definition digit_of (c : ascii) : option Z :=
  let n := Z.of_nat (nat_of_ascii c) in
  if (48 <=? n) && (n <=? 57) then Some (n - 48) else None.

Fixpoint read_digits (k : nat) (acc : Z) (s : string) : option (Z * string) :=
  match k with
  | O => Some (acc, s)
  | S k' =>
      match s with
      | String c rest => d ← digit_of c; read_digits k' (10 * acc + d) rest
      | EmptyString => None
      end
  end.

Definition expect (c : ascii) (s : string) : option string :=
  match s with
  | String c' rest => if Ascii.eqb c c' then Some rest else None
  | EmptyString => None
  end.

Definition is_leap (y : Z) : bool :=
  (y mod 4 =? 0) && (negb (y mod 100 =? 0) || (y mod 400 =? 0)).

Definition days_in_month (y m : Z) : Z :=
  if m =? 2 then (if is_leap y then 29 else 28)
  else if (m =? 4) || (m =? 6) || (m =? 9) || (m =? 11) then 30 else 31.

Definition days_before_year (y : Z) : Z :=
  let p := y - 1 in p * 365 + p / 4 - p / 100 + p / 400.

Definition days_before_month (y m : Z) : Z :=
  nth (Z.to_nat (m - 1)) [0; 31; 59; 90; 120; 151; 181; 212; 243; 273; 304; 334] 0
  + (if (2 <? m) && is_leap y then 1 else 0).

(** Days from 0001-01-01 to the given date. *)
Definition days_from_min (y m d : Z) : Z :=
  days_before_year y + days_before_month y m + d - 1.

Definition read_date (s : string) : option (Z * string) :=
  '(y, s) ← read_digits 4 0 s;
  s ← expect "-" s;
  '(m, s) ← read_digits 2 0 s;
  s ← expect "-" s;
  '(d, s) ← read_digits 2 0 s;
  if (1 <=? y) && (1 <=? m) && (m <=? 12) && (1 <=? d) && (d <=? days_in_month y m)
  then Some (days_from_min y m d, s) else None.

(** [HH:MM] with optional [:SS], in seconds. *)
Definition read_clock (with_seconds : bool) (s : string) : option (Z * string) :=
  '(h, s) ← read_digits 2 0 s;
  s ← expect ":" s;
  '(mi, s) ← read_digits 2 0 s;
  '(sec, s) ← (if with_seconds
               then s ← expect ":" s; read_digits 2 0 s
               else Some (0, s));
  if (h <? 24) && (mi <? 60) && (sec <? 60)
  then Some (h * 3600 + mi * 60 + sec, s) else None.

Definition read_offset (s : string) : option (option Z) :=
  match s with
  | EmptyString => Some None
  | String c rest =>
      sign ← (if Ascii.eqb c "+" then Some 1
              else if Ascii.eqb c "-" then Some (-1) else None);
      '(secs, rest) ← read_clock false rest;
      match rest with
      | EmptyString => Some (Some (sign * secs * 1000000))
      | _ => None
      end
  end.

Definition iso_basic (s : string) : option datetime :=
  '(days, s) ← read_date s;
  match s with
  | EmptyString => Some {| wall := days * US_PER_DAY; tzinfo := None |}
  | String c rest =>
      if Ascii.eqb c "T" then
        '(secs, rest) ← read_clock true rest;
        tz ← read_offset rest;
        Some {| wall := days * US_PER_DAY + secs * 1000000; tzinfo := tz |}
      else None
  end.

(** ** Batching *)

(** The number of elements of [range(start, stop, step)] for a non-zero
    step. *)
Definition range_length (start stop step : Z) : Z :=
  if 0 <? step
  then (if start <? stop then (stop - start - 1) / step + 1 else 0)
  else (if stop <? start then (start - stop - 1) / (- step) + 1 else 0).

(** [range(start, stop, step)]; a zero step is a [ValueError]. *)
Definition py_range (start stop step : Z) : result (list Z) :=
  if step =? 0 then Raise ValueError
  else Ok (map (fun k => start + Z.of_nat k * step)
               (seq 0 (Z.to_nat (range_length start stop step)))).

(** A slice bound as Python adjusts it: a negative bound counts from the
    end, and the result is clamped to [0 .. len]. *)
Definition slice_bound (len i : Z) : Z :=
  if i <? 0 then Z.max (i + len) 0 else Z.min i len.

(** [l[lo:hi]]. *)
Definition py_slice {A : Type} (l : list A) (lo hi : Z) : list A :=
  let len := Z.of_nat (length l) in
  let lo' := slice_bound len lo in
  let hi' := slice_bound len hi in
  take (Z.to_nat (hi' - lo')) (drop (Z.to_nat lo') l).

(** [chunked(seq, size)], as the list of the batches the generator
    yields.  The generator raises when its first element is requested,
    before any batch has been produced. *)
Definition chunked {A : Type} (seq : list A) (size : Z) : result (list (list A)) :=
  starts ← py_range 0 (Z.of_nat (length seq)) size;
  Ok (map (fun i => py_slice seq i (i + size)) starts).

(** ** Classification *)

(** The dicts [filter_inactive_users] builds: keys ["id"], ["email"] and
    ["last_login"]. *)
Record inactive_user : Type := InactiveUser {
  rec_id : json;
  rec_email : json;
  rec_last_login : option aware
}.

(** [args.org_id] is [None] or a string; it is truthy when it is a
    non-empty string. *)
Definition org_truthy (org_id : option string) : bool :=
  match org_id with
  | Some s => negb (String.eqb s "")
  | None => false
  end.

(** [v != org_id]. *)
Definition differs_from (v : json) (org_id : option string) : bool :=
  match org_id with
  | Some s => differs_from_str v s
  | None => match v with JNull => false | _ => true end
  end.

(** [(user.get('status') or '').lower() == 'disabled']. *)
Definition is_disabled (user : json) : result bool :=
  status ← py_get user "status";
  low ← py_lower (py_or status (JStr ""));
  Ok (String.eqb low "disabled").

Section Pipeline.

(** [datetime.fromisoformat] on a string: the parsed value, or [None]
    where the interpreter raises [ValueError]. *)
Variable fromisoformat : string → option datetime.

(** [parse_ts(ts)].  [fromisoformat] rejects a value that is not a string
    with a [TypeError], which the [except ValueError] does not catch. *)
Definition parse_ts (ts : json) : result (option aware) :=
  if negb (truthy ts) then Ok None
  else
    match ts with
    | JStr s =>
        match fromisoformat s with
        | Some parsed =>
            Ok (Some (match tzinfo parsed with
                      | None => {| aware_wall := wall parsed; utcoffset := 0 |}
                      | Some offset => {| aware_wall := wall parsed; utcoffset := offset |}
                      end))
        | None => Ok None
        end
    | _ => Raise TypeError
    end.

(** The body of the first loop of [select_last_login]. *)
Definition filtered_candidate (org_id : option string) (candidates : list aware)
    (entry : json) : result (list aware) :=
  skip ← (if org_truthy org_id
          then v ← py_get entry "orgId"; Ok (differs_from v org_id)
          else Ok false);
  if skip : bool then Ok candidates
  else
    ts ← py_get entry "lastLoginAt";
    parsed ← parse_ts ts;
    Ok (match parsed with
        | Some t => candidates ++ [t]
        | None => candidates
        end).

(** The body of the fallback loop. *)
Definition any_candidate (candidates : list aware) (entry : json)
  : result (list aware) :=
  ts ← py_get entry "lastLoginAt";
  parsed ← parse_ts ts;
  Ok (match parsed with
      | Some t => candidates ++ [t]
      | None => candidates
      end).

Definition select_last_login (user : json) (org_id : option string)
  : result (option aware) :=
  members ← py_get user "orgMembers";
  entries ← py_iter (py_or members (JList []));
  candidates ← for_each (filtered_candidate org_id) [] entries;
  candidates ← (match candidates with
                | [] => if negb (org_truthy org_id)
                        then for_each any_candidate candidates entries
                        else Ok candidates
                | _ => Ok candidates
                end);
  Ok (py_max candidates).

(** The body of the loop of [filter_inactive_users]. *)
Definition classify_user (org_id : option string) (threshold : aware)
    (inactive : list inactive_user) (user : json) : result (list inactive_user) :=
  disabled ← is_disabled user;
  if disabled : bool then Ok inactive
  else
    last_login ← select_last_login user org_id;
    if match last_login with
       | None => true
       | Some t => aware_le t threshold
       end
    then
      uid ← py_get user "id";
      email ← py_get user "email";
      Ok (inactive ++ [ {| rec_id := py_or uid email;
                           rec_email := email;
                           rec_last_login := last_login |} ])
    else Ok inactive.

(** [filter_inactive_users(users, org_id, days_inactive)], with the
    reading of the clock passed as [now] (microseconds of UTC since
    0001-01-01). *)
Definition filter_inactive_users (now : Z) (users : list json)
    (org_id : option string) (days_inactive : Z) : result (list inactive_user) :=
  threshold ← threshold_of now days_inactive;
  inactive ← for_each (classify_user org_id threshold) [] users;
  Ok (List.filter (fun u => truthy (rec_id u)) inactive).

(** A user is classified inactive when the loop body appends a record
    for it. *)
Definition classified_inactive (now days : Z) (org_id : option string)
    (user : json) : bool :=
  match threshold_of now days with
  | Ok threshold =>
      match classify_user org_id threshold [] user with
      | Ok (_ :: _) => true
      | _ => false
      end
  | Raise _ => false
  end.

End Pipeline.

(** ** The run: network calls and printed lines *)

(** One item of the bulk payload; [properties] and [upsert] are the
    constants [{"status": "Disabled"}] and [True]. *)
Record entity : Type := Entity { identifier : json; title : json }.

(** One constructor per [print] call of the script, carrying the values
    its f-string interpolates.  In [SampleLine] the e-mail is [None]
    where the script prints [no email], and the last login is [None]
    where it prints [none]. *)
Inductive line : Type :=
| MissingCredential (name : string)
| TokenFailed (status : Z) (text : string)
| TokenMissing
| FetchFailed (status : Z) (text : string)
| UnexpectedPayload
| Found (users inactive : nat) (days : Z)
| SampleHeader
| SampleLine (uid : json) (email : option json) (last_login : option aware)
| AndMore (count : nat)
| DryRunEnabled
| DisablingBatch (size : nat)
| BulkFailed (status : Z) (text : string)
| PartialSuccess (text : string)
| Completed.

(** What a run does to the outside world, in order. *)
Inductive event : Type :=
| Stdout (l : line)
| Stderr (l : line)
| PostAuth (legacy : bool) (client_id client_secret : string)
| GetUsers (token : json)
| PostBulk (token : json) (entities : list entity).

(** What [session.get] or [session.post] comes back with: a response
    with its status code, its text and its body decoded as JSON (absent
    when the text is not JSON), or no response at all (time-out,
    connection failure), which [requests] reports by raising. *)
Inductive http_result : Type :=
| Response (status_code : Z) (text : string) (body : option json)
| NoResponse.

Record response : Type := Resp {
  status_code : Z;
  text : string;
  body : option json
}.

(** The environment of one run: the reading of the clock and what each
    endpoint answers.  [bulk_endpoint w k payload] is the answer to the
    [k]-th bulk call (counting from 0) when it carries [payload]. *)
Record world : Type := World {
  clock : Z;
  auth_v1 : http_result;
  auth_legacy : http_result;
  users_endpoint : http_result;
  bulk_endpoint : nat → list entity → http_result
}.

(** A computation with effects: the events it produced and how it
    ended. *)
Record io (A : Type) : Type := IO { trace : list event; outcome : result A }.
Arguments IO {A} trace outcome.
Arguments trace {A} _.
Arguments outcome {A} _.

#[global] Instance io_ret : MRet io := fun A a => IO [] (Ok a).
#[global] Instance io_bind : MBind io := fun A B f m =>
  match outcome m with
  | Ok a => IO (trace m ++ trace (f a)) (outcome (f a))
  | Raise e => IO (trace m) (Raise e)
  end.

Definition lift {A : Type} (r : result A) : io A := IO [] r.
Definition emit (e : event) : io unit := IO [e] (Ok tt).
Definition print (l : line) : io unit := emit (Stdout l).
Definition eprint (l : line) : io unit := emit (Stderr l).
Definition sys_exit {A : Type} (code : Z) : io A := lift (Raise (SystemExit code)).

(** Issue a request: the call is observable, then the answer arrives or
    [requests] raises. *)
Definition request (call : event) (answer : http_result) : io response :=
  IO [call]
     match answer with
     | Response s t b => Ok {| status_code := s; text := t; body := b |}
     | NoResponse => Raise RequestException
     end.

(** [resp.json()]. *)
Definition resp_json (resp : response) : io json :=
  lift match body resp with
       | Some data => Ok data
       | None => Raise JSONDecodeError
       end.

(** The exit status of the process: 0 after a normal return, the
    argument of [sys.exit], and 1 after an uncaught exception. *)
Definition exit_code {A : Type} (r : result A) : Z :=
  match r with
  | Ok _ => 0
  | Raise (SystemExit code) => code
  | Raise _ => 1
  end.

(** The parsed command line ([argparse.Namespace]). *)
Record Namespace : Type := Args {
  client_id : option string;
  client_secret : option string;
  base_url : string;
  days_inactive : Z;
  org_id : option string;
  batch_size : Z;
  dry_run : bool
}.

Definition require (value : option string) (name : string) : io string :=
  match value with
  | Some v =>
      if negb (String.eqb v "") then mret v
      else eprint (MissingCredential name);; sys_exit 1
  | None => eprint (MissingCredential name);; sys_exit 1
  end.

Definition get_token (w : world) (client_id client_secret : string) : io json :=
  resp ← request (PostAuth false client_id client_secret) (auth_v1 w);
  resp ← (if status_code resp =? 404
          then request (PostAuth true client_id client_secret) (auth_legacy w)
          else mret resp);
  if negb (status_code resp =? 200)
  then eprint (TokenFailed (status_code resp) (text resp));; sys_exit 1
  else
    data ← resp_json resp;
    token ← lift (py_get data "accessToken");
    if negb (truthy token)
    then eprint TokenMissing;; sys_exit 1
    else mret token.

(** [data.get("users") or data.get("data") or data]. *)
Definition users_of_payload (data : json) : result json :=
  users ← py_get data "users";
  if truthy users then Ok users
  else
    nested ← py_get data "data";
    Ok (py_or nested data).

Definition fetch_users (w : world) (token : json) : io (list json) :=
  resp ← request (GetUsers token) (users_endpoint w);
  if negb (status_code resp =? 200)
  then eprint (FetchFailed (status_code resp) (text resp));; sys_exit 1
  else
    data ← resp_json resp;
    users ← lift (users_of_payload data);
    match users with
    | JList l => mret l
    | _ => eprint UnexpectedPayload;; sys_exit 1
    end.

Definition entity_of (user : inactive_user) : entity :=
  {| identifier := rec_id user;
     title := py_or (rec_email user) (rec_id user) |}.

(** [disable_batch]; [k] is the number of bulk calls made before this
    one. *)
Definition disable_batch (w : world) (token : json) (k : nat)
    (batch : list inactive_user) : io unit :=
  let payload := map entity_of batch in
  resp ← request (PostBulk token payload) (bulk_endpoint w k payload);
  if negb ((status_code resp =? 200) || (status_code resp =? 207))
  then eprint (BulkFailed (status_code resp) (text resp));; sys_exit 1
  else if status_code resp =? 207
       then eprint (PartialSuccess (text resp))
       else mret tt.

(** The [for batch in chunked(...)] loop of [main]. *)
Fixpoint dispatch (w : world) (token : json) (k : nat)
    (batches : list (list inactive_user)) : io unit :=
  match batches with
  | [] => mret tt
  | batch :: rest =>
      print (DisablingBatch (length batch));;
      disable_batch w token k batch;;
      dispatch w token (S k) rest
  end.

Definition sample_line (user : inactive_user) : line :=
  SampleLine (rec_id user)
             (if truthy (rec_email user) then Some (rec_email user) else None)
             (rec_last_login user).

Fixpoint print_all (lines : list line) : io unit :=
  match lines with
  | [] => mret tt
  | l :: rest => print l;; print_all rest
  end.

Section Run.

Variable fromisoformat : string → option datetime.

(** [main], first part (up to the call of [filter_inactive_users]):
    credentials, token, inventory, classification. *)
Definition inventory (args : Namespace) (w : world)
  : io (json * list json * list inactive_user) :=
  client_id ← require (client_id args) "PORT_CLIENT_ID or --client-id";
  client_secret ← require (client_secret args) "PORT_CLIENT_SECRET or --client-secret";
  token ← get_token w client_id client_secret;
  users ← fetch_users w token;
  inactive_users ← lift (filter_inactive_users fromisoformat (clock w) users
                           (org_id args) (days_inactive args));
  mret (token, users, inactive_users).

(** [main], second part: the count line, then, unless no user is
    inactive, the sample lines and the count of the users not shown. *)
Definition preview (args : Namespace) (users : list json)
    (inactive_users : list inactive_user) : io unit :=
  print (Found (length users) (length inactive_users) (days_inactive args));;
  match inactive_users with
  | [] => mret tt
  | _ =>
      let sample := take 5 inactive_users in
      print SampleHeader;;
      print_all (map sample_line sample);;
      if (length sample <? length inactive_users)%nat
      then print (AndMore (length inactive_users - length sample))
      else mret tt
  end.

(** [main], last part, from [if args.dry_run] to the end; reached only
    with a non-empty list of inactive users. *)
Definition apply_changes (args : Namespace) (w : world) (token : json)
    (inactive_users : list inactive_user) : io unit :=
  if dry_run args
  then print DryRunEnabled
  else
    batches ← lift (chunked inactive_users (batch_size args));
    dispatch w token 0 batches;;
    print Completed.

(** [main]: the three parts in sequence; [if not inactive_users: return]
    ends the run after the count line. *)
Definition main (args : Namespace) (w : world) : io unit :=
  '(token, users, inactive_users) ← inventory args w;
  preview args users inactive_users;;
  match inactive_users with
  | [] => mret tt
  | _ => apply_changes args w token inactive_users
  end.

End Run.

(** ** Observations on a trace *)

(** The payloads of the bulk calls of a trace, in order. *)
Definition bulk_calls (t : list event) : list (list entity) :=
  omap (fun e => match e with PostBulk _ payload => Some payload | _ => None end) t.

(** The lines a trace prints on standard output, in order. *)
Definition stdout_lines (t : list event) : list line :=
  omap (fun e => match e with Stdout l => Some l | _ => None end) t.

(** Whether an answer to a bulk call lets the run continue. *)
Definition accepted (answer : http_result) : Prop :=
  ∃ t b, answer = Response 200 t b ∨ answer = Response 207 t b.

Definition set_dry_run (flag : bool) (args : Namespace) : Namespace :=
  {| client_id := client_id args;
     client_secret := client_secret args;
     base_url := base_url args;
     days_inactive := days_inactive args;
     org_id := org_id args;
     batch_size := batch_size args;
     dry_run := flag |}.

(** [⌈a / b⌉] for a positive [b]. *)
Definition ceil_div (a b : Z) : Z := - ((- a) / b).

(** The batches of a positive size, by position: [count] windows of
    width [size]. *)
Definition windows {A : Type} (records : list A) (size count : nat)
  : list (list A) :=
  map (fun k => take size (drop (k * size) records)) (seq 0 count).

(** The test [last_login is None or last_login <= threshold]. *)
Definition due (last_login : option aware) (threshold : aware) : bool :=
  match last_login with
  | None => true
  | Some t => aware_le t threshold
  end.

(** The record the loop builds for a user. *)
Definition record_of (user : gmap string json) (last_login : option aware)
  : inactive_user :=
  {| rec_id := py_or (default JNull (user !! "id")) (default JNull (user !! "email"));
     rec_email := default JNull (user !! "email");
     rec_last_login := last_login |}.

(** The lines [main] prints before any mutation. *)
Definition preview_lines (args : Namespace) (users : list json)
    (inactive_users : list inactive_user) : list line :=
  Found (length users) (length inactive_users) (days_inactive args)
  :: match inactive_users with
     | [] => []
     | _ =>
         SampleHeader
         :: map sample_line (take 5 inactive_users)
         ++ (if (5 <? length inactive_users)%nat
             then [AndMore (length inactive_users - 5)] else [])
     end.

(** A trace of the first part of [main]: no bulk call and nothing on
    standard output (its messages go to standard error). *)
Definition quiet (t : list event) : Prop :=
  bulk_calls t = [] ∧ stdout_lines t = [].

(** ** A sample inventory

    The scenario of the specification: the clock reads
    2024-06-01T00:00Z; A last logged in on 2024-03-01, B on 2024-05-20,
    C never, D is disabled, E last logged in on 2023-12-31. *)

Definition member (org ts : string) : json :=
  JObj {[ "orgId" := JStr org; "lastLoginAt" := JStr ts ]}.

Definition user_dict (uid status : string) (members : list json)
  : gmap string json :=
  {[ "id" := JStr uid;
     "email" := JStr (uid ++ "@example.com")%string;
     "status" := JStr status;
     "orgMembers" := JList members ]}.

Definition user_a : gmap string json := user_dict "A" "Active" [member "org-1" "2024-03-01"].
Definition user_b : gmap string json := user_dict "B" "Active" [member "org-1" "2024-05-20"].
Definition user_c : gmap string json := user_dict "C" "Active" [].
Definition user_d : gmap string json := user_dict "D" "Disabled" [member "org-1" "2024-03-01"].
Definition user_e : gmap string json := user_dict "E" "Active" [member "org-1" "2023-12-31"].

Definition sample_users : list json :=
  [JObj user_a; JObj user_b; JObj user_c; JObj user_d; JObj user_e].

(** 2024-06-01T00:00Z, day 739038 of the calendar. *)
Definition sample_now : Z := 739037 * US_PER_DAY.

Definition sample_args (size : Z) (dry : bool) : Namespace :=
  {| client_id := Some "client";
     client_secret := Some "secret";
     base_url := "https://api.port.io";
     days_inactive := 45;
     org_id := None;
     batch_size := size;
     dry_run := dry |}.

(** A platform that issues a token, serves the sample inventory under
    ["users"], and answers the [k]-th bulk call with [bulk k]. *)
Definition sample_world (bulk : nat → http_result) : world :=
  {| clock := sample_now;
     auth_v1 := Response 200 "" (Some (JObj {[ "accessToken" := JStr "token" ]}));
     auth_legacy := NoResponse;
     users_endpoint := Response 200 "" (Some (JObj {[ "users" := JList sample_users ]}));
     bulk_endpoint := fun k _ => bulk k |}.

Definition sample_trace : list event :=
  [PostAuth false "client" "secret"; GetUsers (JStr "token")].

Definition utc (days : Z) : aware :=
  {| aware_wall := days * US_PER_DAY; utcoffset := 0 |}.

Definition record_a : inactive_user := record_of user_a (Some (utc 738945)).
Definition record_b : inactive_user := record_of user_b (Some (utc 739025)).
Definition record_c : inactive_user := record_of user_c None.
Definition record_e : inactive_user := record_of user_e (Some (utc 738884)).

(** The first bulk call is answered 207 and the second 500. *)
Definition partial_then_failure (k : nat) : http_result :=
  match k with
  | O => Response 207 "partial" None
  | _ => Response 500 "unavailable" None
  end.

(** ** Vocabulary for the properties of selection and classification *)

(** The memberships [select_last_login] iterates over. *)
Definition memberships (user : json) : result (list json) :=
  members ← py_get user "orgMembers";
  py_iter (py_or members (JList [])).

(** Whether the first loop of [select_last_login] looks at the
    timestamp of an entry: always without a filter, and with a filter
    when the entry's [orgId] is that string. *)
Definition considered (org_id : option string) (entry : json) : bool :=
  if org_truthy org_id
  then match py_get entry "orgId" with
       | Ok v => negb (differs_from v org_id)
       | Raise _ => false
       end
  else true.

(** [parse_ts(entry.get("lastLoginAt"))]. *)
Definition entry_login (fromisoformat : string → option datetime) (entry : json)
  : result (option aware) :=
  ts ← py_get entry "lastLoginAt";
  parse_ts fromisoformat ts.

(** ** Vocabulary for the properties of the run *)

(** What [require] rejects: an option that is absent or empty. *)
Definition cred_missing (value : option string) : Prop :=
  value = None ∨ value = Some "".

(** Whether an answer carries the status 404. *)
Definition answers_404 (answer : http_result) : bool :=
  match answer with
  | Response s _ _ => s =? 404
  | NoResponse => false
  end.

(** The answer [get_token] goes by: that of the older endpoint when the
    current one answers 404, else that of the current one. *)
Definition final_auth_answer (w : world) : http_result :=
  if answers_404 (auth_v1 w) then auth_legacy w else auth_v1 w.

(** The authentication calls of a trace, in order. *)
Definition auth_calls (t : list event) : list (bool * string * string) :=
  omap (fun e => match e with
                 | PostAuth legacy cid secret => Some (legacy, cid, secret)
                 | _ => None
                 end) t.

(** The inventory calls of a trace, in order. *)
Definition users_calls (t : list event) : list json :=
  omap (fun e => match e with GetUsers token => Some token | _ => None end) t.

(** A result that is not a [sys.exit]. *)
Definition no_exit {A : Type} (r : result A) : Prop :=
  ∀ code, r ≠ Raise (SystemExit code).

(** A result that, when it is a [sys.exit], is [sys.exit(1)]. *)
Definition exits_with_one {A : Type} (r : result A) : Prop :=
  ∀ code, r = Raise (SystemExit code) → code = 1.

(** The tokens that the inventory call and the bulk calls of a trace
    carry, in order. *)
Definition tokens_used (t : list event) : list json :=
  omap (fun e => match e with
                 | GetUsers token => Some token
                 | PostBulk token _ => Some token
                 | _ => None
                 end) t.

(** ** The command line

    [parse_args] builds an [argparse] parser whose defaults come from
    the environment and lets it read the command line.  The embedding
    takes the environment as a map (what [os.environ] holds once
    [load_dotenv] has run) and the command line as [argparse] reads it:
    for every option the text given to it, if any, and whether
    [--dry-run] is present.  [int] on a string is a parameter, like
    [datetime.fromisoformat]. *)

Record CommandLine : Type := Cli {
  opt_client_id : option string;
  opt_client_secret : option string;
  opt_base_url : option string;
  opt_days_inactive : option string;
  opt_org_id : option string;
  opt_batch_size : option string;
  opt_dry_run : bool
}.

Section ParseArgs.

(** [int(s)]: the number, or [None] where the interpreter raises
    [ValueError]. *)
Variable py_int : string → option Z.

(** An option declared with [type=int]: the default when the option is
    not given; a text that [int] rejects makes [argparse] report the
    error and exit with status 2. *)
Definition int_option (given : option string) (default_value : Z) : result Z :=
  match given with
  | None => Ok default_value
  | Some s =>
      match py_int s with
      | Some n => Ok n
      | None => Raise (SystemExit 2)
      end
  end.

(** An option without a type: the text given, else the default. *)
Definition text_option (given fallback : option string) : option string :=
  match given with
  | Some s => Some s
  | None => fallback
  end.

(** [parse_args()].  The default of [--days-inactive] is computed, with
    [int], while the parser is built, before the command line is
    read. *)
Definition parse_args (env : gmap string string) (cli : CommandLine)
  : result Namespace :=
  days_default ← match py_int (default "45" (env !! "DAYS_INACTIVE")) with
                 | Some n => Ok n
                 | None => Raise ValueError
                 end;
  days ← int_option (opt_days_inactive cli) days_default;
  size ← int_option (opt_batch_size cli) 20;
  Ok {| client_id := text_option (opt_client_id cli) (env !! "PORT_CLIENT_ID");
        client_secret :=
          text_option (opt_client_secret cli) (env !! "PORT_CLIENT_SECRET");
        base_url :=
          default (default "https://api.port.io" (env !! "PORT_BASE_URL"))
                  (opt_base_url cli);
        days_inactive := days;
        org_id := text_option (opt_org_id cli) (env !! "PORT_ORG_ID");
        batch_size := size;
        dry_run := opt_dry_run cli |}.

End ParseArgs.

(** An instance of [int] for running the model: an optional sign
    followed by decimal digits.  The interpreter reads further forms
    (surrounding blanks, underscores between digits). *)
Fixpoint read_decimal (acc : Z) (s : string) : option Z :=
  match s with
  | EmptyString => Some acc
  | String c rest => d ← digit_of c; read_decimal (10 * acc + d) rest
  end.

Definition int_basic (s : string) : option Z :=
  match s with
  | EmptyString => None
  | String c rest =>
      if Ascii.eqb c "-" then
        match rest with EmptyString => None | _ => n ← read_decimal 0 rest; Some (- n) end
      else if Ascii.eqb c "+" then
        match rest with EmptyString => None | _ => read_decimal 0 rest end
      else read_decimal 0 s
  end.

(** The environment and the command line of a plain invocation with the
    credentials in the environment. *)
Definition sample_env : gmap string string :=
  {[ "PORT_CLIENT_ID" := "client"; "PORT_CLIENT_SECRET" := "secret" ]}.

Definition no_options : CommandLine :=
  {| opt_client_id := None; opt_client_secret := None; opt_base_url := None;
     opt_days_inactive := None; opt_org_id := None; opt_batch_size := None;
     opt_dry_run := false |}.

(** A command line that gives every option that has a fallback in the
    environment. *)
Definition full_options : CommandLine :=
  {| opt_client_id := Some "cli-client"; opt_client_secret := Some "cli-secret";
     opt_base_url := Some "https://port.example"; opt_days_inactive := Some "60";
     opt_org_id := Some "org-1"; opt_batch_size := None; opt_dry_run := true |}.

(** ** Running the classification again *)

Section Settle.

Variable fromisoformat : string → option datetime.

(** Whether a user ends up in the output: its turn of the loop appends
    a record, and that record passes the final filter on identifiers. *)
Definition reported (org_id : option string) (threshold : aware) (user : json)
  : bool :=
  match classify_user fromisoformat org_id threshold [] user with
  | Ok [r] => truthy (rec_id r)
  | _ => false
  end.

(** The inventory after the status of every reported user has been set
    to [Disabled], which is what the bulk payload asks for. *)
Definition settle (org_id : option string) (threshold : aware) (user : json)
  : json :=
  match user with
  | JObj o =>
      if reported org_id threshold user
      then JObj (<["status" := JStr "Disabled"]> o)
      else user
  | _ => user
  end.

End Settle.

(** ** More sample users *)

(** A user with neither an id nor an e-mail, and one whose membership
    carries its last login as a number. *)
Definition user_g : gmap string json :=
  {[ "status" := JStr "Active";
     "orgMembers" := JList [member "org-1" "2024-01-15"] ]}.

Definition epoch_member : gmap string json :=
  {[ "orgId" := JStr "org-1"; "lastLoginAt" := JNum 1717200000 ]}.

Definition user_h : gmap string json :=
  {[ "id" := JStr "H"; "status" := JStr "Active";
     "orgMembers" := JList [member "org-1" "2024-05-30"; JObj epoch_member] ]}.

(** A user with memberships in two organizations. *)
Definition user_i : gmap string json :=
  {[ "id" := JStr "I"; "status" := JStr "Active";
     "orgMembers" := JList [member "org-1" "2024-02-01"; member "org-2" "2024-05-30";
                            member "org-1" "2024-03-10"] ]}.

(** Every bulk call is answered 200. *)
Definition always_ok (k : nat) : http_result := Response 200 "" None.

(** The first bulk call is answered 200 and the second gets no answer. *)
Definition ok_then_silence (k : nat) : http_result :=
  match k with
  | O => Response 200 "" None
  | _ => NoResponse
  end.

(** A command line with an empty client secret. *)
Definition args_without_secret : Namespace :=
  {| client_id := Some "client"; client_secret := Some "";
     base_url := "https://api.port.io"; days_inactive := 45;
     org_id := None; batch_size := 20; dry_run := false |}.

(** A user whose only membership in [org-1] carries an unreadable
    timestamp. *)
Definition user_j : gmap string json :=
  {[ "id" := JStr "J"; "status" := JStr "Active";
     "orgMembers" := JList [member "org-1" "last week"; member "org-2" "2024-05-30"] ]}.

(** The first bulk call is answered 207 and the others 200. *)
Definition partial_then_ok (k : nat) : http_result :=
  match k with
  | O => Response 207 "partial" None
  | _ => Response 200 "" None
  end.

(** ** The output of the classification, user by user *)

(** What one user contributes to the output of [filter_inactive_users]
    for a given threshold: its record when the user is not disabled, its
    last login is absent or not after the threshold, and its identifier
    is not empty; nothing otherwise. *)
Definition kept_record (fromisoformat : string → option datetime)
    (org : option string) (threshold : aware) (user : json)
  : option inactive_user :=
  match user, is_disabled user, select_last_login fromisoformat user org with
  | JObj o, Ok false, Ok last_login =>
      let r := record_of o last_login in
      if due last_login threshold && truthy (rec_id r) then Some r else None
  | _, _, _ => None
  end.

(** ** A larger inventory

    Seven users who never logged in, the second of them without an
    e-mail, and B of the sample inventory, who is active. *)
Definition never_seen (uid : string) : json := JObj (user_dict uid "Active" []).

Definition user_without_email : gmap string json :=
  {[ "id" := JStr "U2"; "status" := JStr "Active" ]}.

Definition crowd : list json :=
  [never_seen "U1"; JObj user_without_email; never_seen "U3"; JObj user_b;
   never_seen "U4"; never_seen "U5"; never_seen "U6"; never_seen "U7"].

Definition crowd_records : list inactive_user :=
  [record_of (user_dict "U1" "Active" []) None;
   record_of user_without_email None;
   record_of (user_dict "U3" "Active" []) None;
   record_of (user_dict "U4" "Active" []) None;
   record_of (user_dict "U5" "Active" []) None;
   record_of (user_dict "U6" "Active" []) None;
   record_of (user_dict "U7" "Active" []) None].

(** A platform that serves that inventory and answers the first bulk
    call with 207 and the others with 200. *)
Definition crowd_world : world :=
  {| clock := sample_now;
     auth_v1 := Response 200 "" (Some (JObj {[ "accessToken" := JStr "token" ]}));
     auth_legacy := NoResponse;
     users_endpoint := Response 200 "" (Some (JObj {[ "users" := JList crowd ]}));
     bulk_endpoint := fun k _ => partial_then_ok k |}.

(** * Properties *)

(** ** The two monads *)

Lemma result_bind_ok {A B} (f : A → result B) (a : A) : (Ok a ≫= f) = f a.
Proof. reflexivity. Qed.

Lemma io_eta {A} (m : io A) : IO (trace m) (outcome m) = m.
Proof. by destruct m. Qed.

Lemma io_bind_ok {A B} (f : A → io B) (t : list event) (a : A) :
  (IO t (Ok a) ≫= f) = IO (t ++ trace (f a)) (outcome (f a)).
Proof. reflexivity. Qed.

Lemma io_bind_raise {A B} (f : A → io B) (t : list event) (e : exn) :
  (IO t (Raise e) ≫= f) = IO t (Raise e).
Proof. reflexivity. Qed.

Lemma io_bind_assoc {A B C} (m : io A) (f : A → io B) (g : B → io C) :
  ((m ≫= f) ≫= g) = (m ≫= fun a => f a ≫= g).
Proof.
  destruct m as [t [a|e]]; [|reflexivity].
  rewrite !io_bind_ok. destruct (f a) as [t' [b|e]]; simpl.
  - rewrite io_bind_ok. unfold mbind, io_bind. simpl. by rewrite app_assoc.
  - reflexivity.
Qed.

Lemma trace_bind {A B} (m : io A) (f : A → io B) :
  trace (m ≫= f)
  = trace m ++ match outcome m with Ok a => trace (f a) | Raise _ => [] end.
Proof. destruct m as [t [a|e]]; simpl; [done|by rewrite app_nil_r]. Qed.

Lemma outcome_bind {A B} (m : io A) (f : A → io B) :
  outcome (m ≫= f)
  = match outcome m with Ok a => outcome (f a) | Raise e => Raise e end.
Proof. by destruct m as [t [a|e]]. Qed.

(** ** Batching *)

Section Chunked.

Context {A : Type}.
Implicit Types (records : list A) (n : Z).

Lemma ceil_div_bounds a b :
  0 < b → (ceil_div a b - 1) * b < a ≤ ceil_div a b * b.
Proof.
  intros Hb. unfold ceil_div.
  pose proof (Z.div_mod (- a) b ltac:(lia)) as Hdm.
  pose proof (Z.mod_pos_bound (- a) b Hb) as Hm.
  nia.
Qed.

Lemma ceil_div_unique a b q :
  0 < b → (q - 1) * b < a ≤ q * b → ceil_div a b = q.
Proof.
  intros Hb Hq. pose proof (ceil_div_bounds a b Hb). nia.
Qed.

Lemma range_length_from_zero len n :
  0 < n → 0 ≤ len → range_length 0 len n = ceil_div len n.
Proof.
  intros Hn Hlen. unfold range_length.
  destruct (Z.ltb_spec 0 n); [|lia].
  symmetry. apply ceil_div_unique; [done|].
  destruct (Z.ltb_spec 0 len).
  - pose proof (Z.div_mod (len - 0 - 1) n ltac:(lia)).
    pose proof (Z.mod_pos_bound (len - 0 - 1) n Hn). nia.
  - nia.
Qed.

(** A slice of positive width starting inside or after the list. *)
Lemma py_slice_window records i n :
  0 ≤ i → 0 < n →
  py_slice records i (i + n) = take (Z.to_nat n) (drop (Z.to_nat i) records).
Proof.
  intros Hi Hn. unfold py_slice, slice_bound.
  destruct (Z.ltb_spec i 0); [lia|].
  destruct (Z.ltb_spec (i + n) 0); [lia|].
  set (len := Z.of_nat (length records)).
  destruct (Z.le_gt_cases len i) as [Hout|Hin].
  - rewrite (drop_ge records (Z.to_nat (Z.min i len))) by lia.
    rewrite (drop_ge records (Z.to_nat i)) by lia.
    by rewrite !take_nil.
  - replace (Z.min i len) with i by lia.
    destruct (Z.le_gt_cases (i + n) len).
    + f_equal. lia.
    + rewrite !take_ge; [done| |]; rewrite length_drop; lia.
Qed.

Lemma chunked_windows records n :
  1 ≤ n →
  chunked records n
  = Ok (windows records (Z.to_nat n)
          (Z.to_nat (ceil_div (Z.of_nat (length records)) n))).
Proof.
  intros Hn. unfold chunked, py_range.
  destruct (Z.eqb_spec n 0); [lia|].
  rewrite result_bind_ok. f_equal.
  rewrite range_length_from_zero by lia.
  unfold windows. rewrite map_map. apply map_ext. intros k.
  rewrite py_slice_window by lia. f_equal. f_equal. lia.
Qed.

Lemma concat_windows records size count :
  concat (windows records size count) = take (count * size) records.
Proof.
  unfold windows. induction count as [|count IH].
  - by rewrite take_0.
  - rewrite seq_S, map_app, concat_app, IH. simpl.
    rewrite app_nil_r, take_take_drop. f_equal. lia.
Qed.

Lemma windows_length records size count :
  length (windows records size count) = count.
Proof. unfold windows. by rewrite length_map, length_seq. Qed.

Lemma windows_lookup records size count i batch :
  windows records size count !! i = Some batch →
  (i < count)%nat ∧ batch = take size (drop (i * size) records).
Proof.
  unfold windows. rewrite list_lookup_fmap.
  intros H. destruct (seq 0 count !! i) as [k|] eqn:Hk; [|done].
  apply lookup_seq in Hk as [-> ?]. simpl in H. by inversion H.
Qed.

End Chunked.

(** C3.  For a batch size [n >= 1], [chunked] produces
    [ceil(|records| / n)] batches, every batch except possibly the last
    has exactly [n] records, no batch is empty or longer than [n], and
    the batches concatenated in order are exactly [records]. *)
Theorem chunked_partition {A : Type} (records : list A) (n : Z) :
  1 ≤ n →
  ∃ batches,
    chunked records n = Ok batches
    ∧ Z.of_nat (length batches) = ceil_div (Z.of_nat (length records)) n
    ∧ concat batches = records
    ∧ (∀ i batch, batches !! i = Some batch → (S i < length batches)%nat →
         Z.of_nat (length batch) = n)
    ∧ (∀ i batch, batches !! i = Some batch →
         1 ≤ Z.of_nat (length batch) ≤ n).
Proof.
  intros Hn. eexists. split; [by apply chunked_windows|].
  set (len := Z.of_nat (length records)).
  pose proof (ceil_div_bounds len n ltac:(lia)) as Hc.
  assert (0 ≤ ceil_div len n) as Hc0 by (subst len; nia).
  rewrite windows_length, concat_windows.
  split; [lia|]. split; [apply take_ge; subst len; nia|].
  split.
  - intros i batch Hb Hi. apply windows_lookup in Hb as [_ ->].
    rewrite length_take, length_drop. subst len. nia.
  - intros i batch Hb. apply windows_lookup in Hb as [Hi ->].
    rewrite length_take, length_drop. subst len. nia.
Qed.

(** ** Timestamps *)

Section Classification.

Variable fromisoformat : string → option datetime.

Lemma parse_ts_string s :
  parse_ts fromisoformat (JStr s)
  = Ok (if String.eqb s "" then None
        else match fromisoformat s with
             | Some parsed =>
                 Some {| aware_wall := wall parsed;
                         utcoffset := default 0 (tzinfo parsed) |}
             | None => None
             end).
Proof.
  unfold parse_ts. simpl.
  destruct (String.eqb s ""); simpl; [done|].
  destruct (fromisoformat s) as [[w [off|]]|]; reflexivity.
Qed.

(** A value that is neither false nor a string is handed to
    [fromisoformat], whose [TypeError] is not caught. *)
Remark parse_ts_not_a_string ts :
  truthy ts = true → (∀ s, ts ≠ JStr s) → parse_ts fromisoformat ts = Raise TypeError.
Proof.
  intros Ht Hs. unfold parse_ts. rewrite Ht. simpl.
  destruct ts; try reflexivity. by destruct (Hs s).
Qed.

(** C9.  On a string, [parse_ts] always returns.  It returns [None]
    exactly for the empty string and for the strings [fromisoformat]
    rejects, which include ISO-8601 forms that the library does not
    read; a string that [fromisoformat] reads with an offset comes back
    with that offset, and one that it reads without an offset comes back
    with offset zero (UTC). *)
Theorem parse_ts_total (s : string) :
  (∃ r, parse_ts fromisoformat (JStr s) = Ok r)
  ∧ (parse_ts fromisoformat (JStr s) = Ok None ↔ s = "" ∨ fromisoformat s = None)
  ∧ (∀ w offset, s ≠ "" →
       fromisoformat s = Some {| wall := w; tzinfo := Some offset |} →
       parse_ts fromisoformat (JStr s) = Ok (Some {| aware_wall := w; utcoffset := offset |}))
  ∧ (∀ w, s ≠ "" →
       fromisoformat s = Some {| wall := w; tzinfo := None |} →
       parse_ts fromisoformat (JStr s) = Ok (Some {| aware_wall := w; utcoffset := 0 |})).
Proof.
  rewrite parse_ts_string. split; [by eexists|].
  split; [|split].
  - destruct (String.eqb_spec s "") as [->|Hne]; [split; [by left|done]|].
    destruct (fromisoformat s) as [parsed|]; split; try done.
    + by intros [?|?].
    + by right.
  - intros w offset Hne Hparsed. destruct (String.eqb_spec s ""); [done|].
    by rewrite Hparsed.
  - intros w Hne Hparsed. destruct (String.eqb_spec s ""); [done|].
    by rewrite Hparsed.
Qed.

(** ** Last-login selection *)

Lemma for_each_app {X Y} (body : Y → X → result Y) acc xs ys :
  for_each body acc (xs ++ ys)
  = (acc' ← for_each body acc xs; for_each body acc' ys).
Proof.
  revert acc. induction xs as [|x xs IH]; intros acc; simpl; [done|].
  destruct (body acc x) as [acc'|e]; simpl; [apply IH|done].
Qed.

(** With a filter set, an entry of another organization is skipped
    before its timestamp is looked at. *)
Lemma filtered_candidate_skips org candidates (eo : gmap string json) :
  org ≠ "" → eo !! "orgId" ≠ Some (JStr org) →
  filtered_candidate fromisoformat (Some org) candidates (JObj eo) = Ok candidates.
Proof.
  intros Horg Hne. unfold filtered_candidate. simpl.
  destruct (String.eqb_spec org ""); [done|]. simpl.
  destruct (eo !! "orgId") as [[| | |s| |]|] eqn:Hid; simpl; try done.
  destruct (String.eqb_spec s org) as [->|]; [by destruct Hne|done].
Qed.

Lemma for_each_all_skipped org entries candidates :
  org ≠ "" →
  Forall (fun e => ∃ eo : gmap string json,
            e = JObj eo ∧ eo !! "orgId" ≠ Some (JStr org)) entries →
  for_each (filtered_candidate fromisoformat (Some org)) candidates entries
  = Ok candidates.
Proof.
  intros Horg. induction 1 as [|e entries (eo & -> & Hne) _ IH]; simpl; [done|].
  by rewrite filtered_candidate_skips.
Qed.

Lemma py_iter_members (o : gmap string json) entries :
  default (JList []) (o !! "orgMembers") = JList entries →
  py_iter (py_or (default JNull (o !! "orgMembers")) (JList [])) = Ok entries.
Proof.
  destruct (o !! "orgMembers") as [v|]; simpl.
  - intros ->. by destruct entries.
  - by intros [= <-].
Qed.

(** C8.  With a non-empty organization filter and no membership whose
    [orgId] equals it, [select_last_login] returns [None] whatever the
    memberships' timestamps are (the pass over all memberships is not
    run), and a user that is not disabled is recorded as inactive with
    no last login. *)
Theorem select_last_login_unmatched_filter
    (o : gmap string json) (entries : list json) (org : string) :
  org ≠ "" →
  default (JList []) (o !! "orgMembers") = JList entries →
  Forall (fun e => ∃ eo : gmap string json,
            e = JObj eo ∧ eo !! "orgId" ≠ Some (JStr org)) entries →
  select_last_login fromisoformat (JObj o) (Some org) = Ok None
  ∧ (∀ threshold inactive,
       is_disabled (JObj o) = Ok false →
       classify_user fromisoformat (Some org) threshold inactive (JObj o)
       = Ok (inactive ++ [record_of o None])).
Proof.
  intros Horg Hmembers Hall.
  assert (select_last_login fromisoformat (JObj o) (Some org) = Ok None) as Hsel.
  { unfold select_last_login. simpl.
    rewrite (py_iter_members _ _ Hmembers). simpl.
    rewrite for_each_all_skipped by done. simpl.
    by destruct (String.eqb_spec org ""). }
  split; [done|]. intros threshold inactive Hdis.
  unfold classify_user. rewrite Hdis. simpl. by rewrite Hsel.
Qed.

(** ** Classification *)

Lemma classify_user_disabled org threshold inactive user :
  is_disabled user = Ok true →
  classify_user fromisoformat org threshold inactive user = Ok inactive.
Proof. intros H. unfold classify_user. by rewrite H. Qed.

(** The guard of the loop, read on the user's dict. *)
Lemma is_disabled_status (o : gmap string json) s :
  o !! "status" = Some (JStr s) → lower s = "disabled" →
  is_disabled (JObj o) = Ok true.
Proof.
  intros Hs Hlow. unfold is_disabled. simpl. rewrite Hs. simpl.
  unfold py_or. simpl. destruct (String.eqb_spec s "") as [->|]; simpl.
  - discriminate Hlow.
  - by rewrite Hlow.
Qed.

(** C5.  A user whose status is [Disabled] (in any letter case) leaves
    the list of records untouched, and the output of
    [filter_inactive_users] is the same as if the user were not in the
    inventory, whatever its memberships, timestamps and identifiers
    are. *)
Theorem disabled_user_excluded
    (o : gmap string json) (s : string) (now days : Z) (org : option string)
    (before after : list json) :
  o !! "status" = Some (JStr s) → lower s = "disabled" →
  (∀ threshold inactive,
     classify_user fromisoformat org threshold inactive (JObj o) = Ok inactive)
  ∧ filter_inactive_users fromisoformat now (before ++ JObj o :: after) org days
    = filter_inactive_users fromisoformat now (before ++ after) org days.
Proof.
  intros Hs Hlow.
  pose proof (is_disabled_status o s Hs Hlow) as Hdis.
  split; [intros; by apply classify_user_disabled|].
  unfold filter_inactive_users.
  destruct (threshold_of now days) as [threshold|e]; simpl; [|done].
  rewrite !for_each_app.
  destruct (for_each _ [] before) as [acc|e]; simpl; [|done].
  by rewrite classify_user_disabled.
Qed.

Lemma threshold_of_instant now days threshold :
  threshold_of now days = Ok threshold →
  instant threshold = now - days * US_PER_DAY.
Proof.
  unfold threshold_of, timedelta_days, datetime_sub.
  destruct (MAX_DELTA_DAYS <? Z.abs days); simpl; [done|].
  match goal with |- context [if ?c then _ else _] => destruct c end; [|done].
  intros [= <-]. unfold instant. simpl. lia.
Qed.

Lemma is_disabled_dict user flag :
  is_disabled user = Ok flag → ∃ o, user = JObj o.
Proof. destruct user; try done. by eexists. Qed.

Lemma classify_user_enabled org threshold inactive (o : gmap string json) last_login :
  is_disabled (JObj o) = Ok false →
  select_last_login fromisoformat (JObj o) org = Ok last_login →
  classify_user fromisoformat org threshold inactive (JObj o)
  = Ok (if due last_login threshold
        then inactive ++ [record_of o last_login] else inactive).
Proof.
  intros Hdis Hsel. unfold classify_user. rewrite Hdis. simpl. rewrite Hsel. simpl.
  unfold due. by destruct last_login as [t|]; [destruct (aware_le t threshold)|].
Qed.

Lemma due_spec last_login threshold :
  due last_login threshold = true
  ↔ last_login = None
    ∨ ∃ t, last_login = Some t ∧ instant t ≤ instant threshold.
Proof.
  destruct last_login as [t|]; simpl; [|by intuition].
  unfold aware_le. rewrite Z.leb_le. split.
  - intros; right; eauto.
  - intros [?|(t' & [= <-] & ?)]; done.
Qed.

(** C4.  For a user that is not disabled, with [last_login] what
    [select_last_login] derives and the threshold instant
    [now - days] representable: the user is classified inactive exactly
    when [last_login] is [None] or is at or before the threshold (the
    boundary included); otherwise the loop adds nothing.  The output for
    that user alone is its record when classified inactive and it has an
    identifier, and empty otherwise. *)
Theorem classify_threshold
    (o : gmap string json) (now days : Z) (org : option string)
    (threshold : aware) (last_login : option aware) :
  is_disabled (JObj o) = Ok false →
  select_last_login fromisoformat (JObj o) org = Ok last_login →
  threshold_of now days = Ok threshold →
  (classified_inactive fromisoformat now days org (JObj o) = true
   ↔ last_login = None
     ∨ ∃ t, last_login = Some t ∧ instant t ≤ now - days * US_PER_DAY)
  ∧ (∀ inactive,
       classify_user fromisoformat org threshold inactive (JObj o)
       = Ok (if due last_login threshold
             then inactive ++ [record_of o last_login] else inactive))
  ∧ filter_inactive_users fromisoformat now [JObj o] org days
    = Ok (if due last_login threshold && truthy (rec_id (record_of o last_login))
          then [record_of o last_login] else []).
Proof.
  intros Hdis Hsel Hth.
  pose proof (threshold_of_instant _ _ _ Hth) as Hinst.
  pose proof (λ inactive, classify_user_enabled org threshold inactive o _ Hdis Hsel)
    as Hstep.
  split; [|split; [done|]].
  - rewrite <- Hinst, <- due_spec. unfold classified_inactive.
    rewrite Hth, Hstep. by destruct (due last_login threshold).
  - unfold filter_inactive_users. rewrite Hth. simpl. rewrite Hstep. simpl.
    destruct (due last_login threshold); simpl; [|done].
    by destruct (truthy _).
Qed.

(** C1, amended.  For a fixed [now], lowering [days] never moves an
    inactive user into the active set: a user classified inactive at
    [days] is classified inactive at every [days' <= days] whose
    threshold instant is representable. *)
Theorem classify_antitone
    (user : json) (now days days' : Z) (org : option string) (threshold' : aware) :
  days' ≤ days →
  threshold_of now days' = Ok threshold' →
  classified_inactive fromisoformat now days org user = true →
  classified_inactive fromisoformat now days' org user = true.
Proof.
  intros Hle Hth'. unfold classified_inactive. rewrite Hth'.
  destruct (threshold_of now days) as [threshold|] eqn:Hth; [|done].
  pose proof (threshold_of_instant _ _ _ Hth) as Hi.
  pose proof (threshold_of_instant _ _ _ Hth') as Hi'.
  unfold classify_user.
  destruct (is_disabled user) as [[|]|e]; simpl; try done.
  destruct (select_last_login fromisoformat user org) as [last_login|e]; simpl;
    [|done].
  assert (due last_login threshold = true → due last_login threshold' = true) as Hmono.
  { rewrite !due_spec. intros [?|(t & ? & ?)]; [by left|right].
    exists t. split; [done|]. unfold US_PER_DAY in *. lia. }
  fold (due last_login threshold). fold (due last_login threshold').
  destruct (due last_login threshold); [|done].
  by rewrite Hmono.
Qed.

(** Between zero days and a representable threshold every threshold is
    representable. *)
Lemma threshold_of_between now days days' threshold :
  0 ≤ now < DATETIME_SPAN → 0 ≤ days' ≤ days →
  threshold_of now days = Ok threshold →
  ∃ threshold', threshold_of now days' = Ok threshold'.
Proof.
  intros Hnow Hd. unfold threshold_of, timedelta_days, datetime_sub.
  destruct (Z.ltb_spec MAX_DELTA_DAYS (Z.abs days)); simpl; [done|].
  destruct (Z.ltb_spec MAX_DELTA_DAYS (Z.abs days')); simpl; [lia|].
  destruct (Z.leb_spec 0 (now - days * US_PER_DAY)); simpl; [|done].
  intros _.
  destruct (Z.leb_spec 0 (now - days' * US_PER_DAY));
    destruct (Z.ltb_spec (now - days' * US_PER_DAY) DATETIME_SPAN);
    simpl; eauto; unfold DATETIME_SPAN, US_PER_DAY in *; lia.
Qed.

End Classification.

(** ** Decoding the inventory *)

(** A non-empty list under ["users"] is the inventory. *)
Lemma users_of_payload_users (o : gmap string json) u l :
  o !! "users" = Some (JList (u :: l)) →
  users_of_payload (JObj o) = Ok (JList (u :: l)).
Proof. intros H. unfold users_of_payload. simpl. by rewrite H. Qed.

(** Failing that, a non-empty list under ["data"] is. *)
Lemma users_of_payload_data (o : gmap string json) v u l :
  default JNull (o !! "users") = v → truthy v = false →
  o !! "data" = Some (JList (u :: l)) →
  users_of_payload (JObj o) = Ok (JList (u :: l)).
Proof.
  intros Hv Hf Hd. unfold users_of_payload. simpl. rewrite Hv, Hf. simpl.
  by rewrite Hd.
Qed.

(** A payload that is not a dict has no [get]. *)
Lemma users_of_payload_not_dict data :
  (∀ o, data ≠ JObj o) → users_of_payload data = Raise AttributeError.
Proof. intros H. destruct data; try done. by destruct (H o). Qed.

(** C2.  The decoding at two payloads of a 200 response.  A payload that
    is itself a list makes [fetch_users] raise [AttributeError] right
    after the call, and a payload whose ["users"] key holds the empty
    list is reported as unexpected and ends the run with [sys.exit(1)];
    neither is decoded as a list of users. *)
Theorem fetch_users_undecoded_lists
    (now : Z) (a1 a2 : http_result) (bulk : nat → list entity → http_result)
    (token : json) (t : string) (l : list json) :
  fetch_users (World now a1 a2 (Response 200 t (Some (JList l))) bulk) token
  = IO [GetUsers token] (Raise AttributeError)
  ∧ fetch_users
      (World now a1 a2
         (Response 200 t (Some (JObj {[ "users" := JList [] ]}))) bulk) token
    = IO [GetUsers token; Stderr UnexpectedPayload] (Raise (SystemExit 1)).
Proof. split; reflexivity. Qed.

(** ** The run *)

Lemma bulk_calls_app t1 t2 : bulk_calls (t1 ++ t2) = bulk_calls t1 ++ bulk_calls t2.
Proof. apply omap_app. Qed.

Lemma stdout_lines_app t1 t2 :
  stdout_lines (t1 ++ t2) = stdout_lines t1 ++ stdout_lines t2.
Proof. apply omap_app. Qed.

Lemma bulk_calls_stdout ls : bulk_calls (map Stdout ls) = [].
Proof. induction ls; [done|]. simpl. apply IHls. Qed.

Lemma stdout_lines_stdout ls : stdout_lines (map Stdout ls) = ls.
Proof. induction ls as [|l ls IH]; [done|]. simpl. f_equal. apply IH. Qed.

Lemma quiet_nil : quiet [].
Proof. done. Qed.

Lemma quiet_app t1 t2 : quiet t1 → quiet t2 → quiet (t1 ++ t2).
Proof.
  intros [Hb1 Hs1] [Hb2 Hs2]. split.
  - by rewrite bulk_calls_app, Hb1, Hb2.
  - by rewrite stdout_lines_app, Hs1, Hs2.
Qed.

Lemma quiet_bind {A B} (m : io A) (f : A → io B) :
  quiet (trace m) → (∀ a, quiet (trace (f a))) → quiet (trace (m ≫= f)).
Proof.
  intros Hm Hf. destruct m as [t [a|e]]; simpl in *; [|done].
  by apply quiet_app.
Qed.

Lemma quiet_lift {A} (r : result A) : quiet (trace (lift r)).
Proof. done. Qed.

Lemma quiet_mret {A} (a : A) : quiet (trace (mret a)).
Proof. done. Qed.

Lemma quiet_stderr_exit {A} l : quiet (trace (eprint l ≫= λ _, @sys_exit A 1)).
Proof. done. Qed.

Lemma quiet_request_auth legacy cid secret answer :
  quiet (trace (request (PostAuth legacy cid secret) answer)).
Proof. done. Qed.

Lemma quiet_request_users token answer :
  quiet (trace (request (GetUsers token) answer)).
Proof. done. Qed.

Create HintDb quiet.
#[local] Hint Resolve quiet_nil quiet_lift quiet_mret quiet_stderr_exit
  quiet_request_auth quiet_request_users : quiet.

(** Split a sequence of steps and close the steps the hints know. *)
Ltac quiet_steps :=
  repeat (apply quiet_bind; [solve [auto with quiet]|intros ?]).

Lemma quiet_require value name : quiet (trace (require value name)).
Proof.
  destruct value as [v|]; [|done]. unfold require.
  destruct (String.eqb v ""); auto with quiet.
Qed.

Lemma quiet_get_token w cid secret : quiet (trace (get_token w cid secret)).
Proof.
  unfold get_token. apply quiet_bind; [auto with quiet|]. intros resp.
  apply quiet_bind; [destruct (status_code resp =? 404); auto with quiet|].
  intros resp'. destruct (status_code resp' =? 200); simpl; [|done].
  unfold resp_json. quiet_steps.
  match goal with |- context [truthy ?v] => destruct (truthy v) end;
    auto with quiet.
Qed.

Lemma quiet_fetch_users w token : quiet (trace (fetch_users w token)).
Proof.
  unfold fetch_users. quiet_steps.
  match goal with |- context [status_code ?r =? 200] =>
    destruct (status_code r =? 200) end; simpl; [|done].
  unfold resp_json. quiet_steps.
  match goal with |- context [match ?u with JList _ => _ | _ => _ end] =>
    destruct u end; auto with quiet.
Qed.

#[local] Hint Resolve quiet_require quiet_get_token quiet_fetch_users : quiet.

Lemma quiet_inventory fromisoformat args w :
  quiet (trace (inventory fromisoformat args w)).
Proof. unfold inventory. quiet_steps. auto with quiet. Qed.

Lemma print_all_trace ls : print_all ls = IO (map Stdout ls) (Ok tt).
Proof. induction ls as [|l ls IH]; [done|]. simpl. by rewrite IH. Qed.

Lemma preview_trace args users inactive :
  preview args users inactive
  = IO (map Stdout (preview_lines args users inactive)) (Ok tt).
Proof.
  unfold preview, preview_lines. destruct inactive as [|u inactive]; [done|].
  set (l := u :: inactive).
  rewrite print_all_trace.
  assert (length (take 5 l) = Nat.min 5 (length l)) as Hlen by apply length_take.
  destruct (Nat.ltb_spec (length (take 5 l)) (length l));
    destruct (Nat.ltb_spec 5 (length l)); try lia.
  - replace (length l - length (take 5 l))%nat with (length l - 5)%nat by lia.
    unfold mbind, io_bind, print, emit. simpl. by rewrite map_app.
  - unfold mbind, io_bind, print, emit. simpl. by rewrite map_app.
Qed.

Lemma io_bind_ok_inv {A B} (m : io A) (f : A → io B) t b :
  (m ≫= f) = IO t (Ok b) →
  ∃ t1 a t2, m = IO t1 (Ok a) ∧ f a = IO t2 (Ok b) ∧ t = t1 ++ t2.
Proof.
  destruct m as [t1 [a|e]]; [|done]. rewrite io_bind_ok.
  intros [= <- Hout]. exists t1, a, (trace (f a)).
  split; [done|]. split; [|done]. rewrite <- Hout. symmetry. apply io_eta.
Qed.

(** The list of inactive users the first part hands on is what
    [filter_inactive_users] returns on the fetched users. *)
Lemma inventory_classifies fromisoformat args w tr token users inactive :
  inventory fromisoformat args w = IO tr (Ok (token, users, inactive)) →
  filter_inactive_users fromisoformat (clock w) users (org_id args)
    (days_inactive args) = Ok inactive.
Proof.
  unfold inventory. intros H.
  apply io_bind_ok_inv in H as (? & cid & ? & _ & H & _).
  apply io_bind_ok_inv in H as (? & secret & ? & _ & H & _).
  apply io_bind_ok_inv in H as (? & token' & ? & _ & H & _).
  apply io_bind_ok_inv in H as (? & users' & ? & _ & H & _).
  apply io_bind_ok_inv in H as (? & inactive' & ? & Hfilter & H & _).
  injection H as _ <- <- <-. unfold lift in Hfilter. by injection Hfilter.
Qed.

(** [main] once the first part has succeeded. *)
Lemma main_after_inventory fromisoformat args w tr token users inactive :
  inventory fromisoformat args w = IO tr (Ok (token, users, inactive)) →
  main fromisoformat args w
  = match inactive with
    | [] => IO (tr ++ map Stdout (preview_lines args users inactive)) (Ok tt)
    | _ =>
        let rest := apply_changes args w token inactive in
        IO (tr ++ map Stdout (preview_lines args users inactive) ++ trace rest)
           (outcome rest)
    end.
Proof.
  intros Hinv. unfold main. rewrite Hinv, io_bind_ok. rewrite preview_trace.
  by destruct inactive.
Qed.

(** [main] when the first part fails: nothing more happens. *)
Lemma main_inventory_raises fromisoformat args w tr e :
  inventory fromisoformat args w = IO tr (Raise e) →
  main fromisoformat args w = IO tr (Raise e).
Proof. intros Hinv. unfold main. by rewrite Hinv. Qed.

(** ** Dispatch *)

Lemma io_bind_prefix {A B} (p : list event) (m : io A) (f : A → io B) :
  (IO (p ++ trace m) (outcome m) ≫= f)
  = IO (p ++ trace (m ≫= f)) (outcome (m ≫= f)).
Proof.
  destruct m as [t [a|e]]; unfold mbind, io_bind; simpl; [|done].
  by rewrite app_assoc.
Qed.

Lemma io_lift_ok {A B} (a : A) (f : A → io B) : (lift (Ok a) ≫= f) = f a.
Proof. unfold lift, mbind, io_bind. simpl. apply io_eta. Qed.

Lemma io_lift_raise {A B} (e : exn) (f : A → io B) :
  (lift (Raise e) ≫= f) = IO [] (Raise e).
Proof. reflexivity. Qed.

(** One bulk call, by the status of its answer. *)
Lemma disable_batch_response w token k batch s t b :
  bulk_endpoint w k (map entity_of batch) = Response s t b →
  disable_batch w token k batch
  = let call := PostBulk token (map entity_of batch) in
    if s =? 200 then IO [call] (Ok tt)
    else if s =? 207 then IO [call; Stderr (PartialSuccess t)] (Ok tt)
    else IO [call; Stderr (BulkFailed s t)] (Raise (SystemExit 1)).
Proof.
  intros Hresp. unfold disable_batch. rewrite Hresp. simpl.
  unfold mbind, io_bind. simpl.
  destruct (Z.eqb_spec s 200) as [->|]; [done|].
  by destruct (Z.eqb_spec s 207) as [->|].
Qed.

(** No answer at all: [requests] raises and nothing is printed. *)
Remark disable_batch_no_response w token k batch :
  bulk_endpoint w k (map entity_of batch) = NoResponse →
  disable_batch w token k batch
  = IO [PostBulk token (map entity_of batch)] (Raise RequestException).
Proof. intros Hresp. unfold disable_batch. by rewrite Hresp. Qed.

Lemma dispatch_cons w token k batch rest :
  dispatch w token k (batch :: rest)
  = (print (DisablingBatch (length batch)) ≫= λ _,
     disable_batch w token k batch ≫= λ _,
     dispatch w token (S k) rest).
Proof. reflexivity. Qed.

(** One turn of the loop, by the status of the answer. *)
Lemma dispatch_step w token k batch rest s t b :
  bulk_endpoint w k (map entity_of batch) = Response s t b →
  dispatch w token k (batch :: rest)
  = let announce := Stdout (DisablingBatch (length batch)) in
    let call := PostBulk token (map entity_of batch) in
    let next := dispatch w token (S k) rest in
    if s =? 200 then IO (announce :: call :: trace next) (outcome next)
    else if s =? 207
         then IO (announce :: call :: Stderr (PartialSuccess t) :: trace next)
                 (outcome next)
         else IO [announce; call; Stderr (BulkFailed s t)] (Raise (SystemExit 1)).
Proof.
  intros Hresp. rewrite dispatch_cons, (disable_batch_response _ _ _ _ _ _ _ Hresp).
  simpl. destruct (s =? 200); [done|]. by destruct (s =? 207).
Qed.

(** The same turn followed by the rest of [main]. *)
Lemma dispatch_step_then {B} (f : unit → io B) w token k batch rest s t b :
  bulk_endpoint w k (map entity_of batch) = Response s t b →
  (dispatch w token k (batch :: rest) ≫= f)
  = let announce := Stdout (DisablingBatch (length batch)) in
    let call := PostBulk token (map entity_of batch) in
    let next := dispatch w token (S k) rest ≫= f in
    if s =? 200 then IO (announce :: call :: trace next) (outcome next)
    else if s =? 207
         then IO (announce :: call :: Stderr (PartialSuccess t) :: trace next)
                 (outcome next)
         else IO [announce; call; Stderr (BulkFailed s t)] (Raise (SystemExit 1)).
Proof.
  intros Hresp. rewrite (dispatch_step _ _ _ _ _ _ _ _ Hresp). cbv zeta.
  destruct (s =? 200); [apply (io_bind_prefix [_; _])|].
  destruct (s =? 207); [apply (io_bind_prefix [_; _; _])|done].
Qed.

Lemma accepted_status answer :
  accepted answer →
  ∃ s t b, answer = Response s t b ∧ (s = 200 ∨ s = 207).
Proof. intros (t & b & [->| ->]); eauto 6. Qed.

(** While the answers are accepted the loop goes on: after the batches
    of [done] it is at the next batch, having issued one call per
    batch. *)
Lemma dispatch_accepted w token done : ∀ k rest,
  (∀ i earlier, done !! i = Some earlier →
     accepted (bulk_endpoint w (k + i) (map entity_of earlier))) →
  ∃ before,
    bulk_calls before = map (map entity_of) done
    ∧ dispatch w token k (done ++ rest)
      = let next := dispatch w token (k + length done) rest in
        IO (before ++ trace next) (outcome next).
Proof.
  induction done as [|batch done IH]; intros k rest Hacc.
  - exists []. split; [done|]. simpl. rewrite Nat.add_0_r. by rewrite io_eta.
  - destruct (accepted_status _ (Hacc 0%nat batch eq_refl))
      as (s & t & b & Hresp & Hs).
    rewrite Nat.add_0_r in Hresp.
    destruct (IH (S k) rest) as (before & Hcalls & Hrun).
    { intros i earlier Hi. replace (S k + i)%nat with (k + S i)%nat by lia.
      by apply Hacc. }
    rewrite <- app_comm_cons, (dispatch_step _ _ _ _ _ _ _ _ Hresp), Hrun.
    simpl. replace (k + S (length done))%nat with (S (k + length done)) by lia.
    destruct Hs as [-> | ->]; simpl.
    + eexists (_ :: _ :: before). split; [|done]. simpl. by rewrite Hcalls.
    + eexists (_ :: _ :: _ :: before). split; [|done]. simpl. by rewrite Hcalls.
Qed.

Lemma dispatch_all_accepted w token batches k :
  (∀ i payload, accepted (bulk_endpoint w i payload)) →
  ∃ calls,
    bulk_calls calls = map (map entity_of) batches
    ∧ dispatch w token k batches = IO calls (Ok tt).
Proof.
  intros Hacc.
  destruct (dispatch_accepted w token batches k []) as (before & Hcalls & Hrun).
  { intros; apply Hacc. }
  exists before. split; [done|].
  rewrite app_nil_r in Hrun. rewrite Hrun. cbn. by rewrite app_nil_r.
Qed.

Lemma apply_changes_dispatch args w token inactive batches :
  dry_run args = false →
  chunked inactive (batch_size args) = Ok batches →
  apply_changes args w token inactive
  = (dispatch w token 0 batches ≫= λ _, print Completed).
Proof.
  intros Hdry Hchunk. unfold apply_changes. rewrite Hdry, Hchunk.
  by rewrite io_lift_ok.
Qed.

Lemma disable_batch_calls w token k batch :
  bulk_calls (trace (disable_batch w token k batch)) = [map entity_of batch].
Proof.
  unfold disable_batch.
  destruct (bulk_endpoint w k (map entity_of batch)) as [s t b|]; [|done]. simpl.
  destruct (s =? 200); destruct (s =? 207); done.
Qed.

(** Whatever the answers, the loop posts the batches in order, each at
    most once, and stops at the first one that is not accepted. *)
Lemma dispatch_calls_prefix w token batches : ∀ k,
  bulk_calls (trace (dispatch w token k batches))
  `prefix_of` map (map entity_of) batches.
Proof.
  induction batches as [|batch rest IH]; intros k; [done|].
  rewrite dispatch_cons. unfold print at 1, emit. rewrite io_bind_ok.
  cbn [trace]. rewrite trace_bind, !bulk_calls_app, disable_batch_calls.
  cbn [bulk_calls omap list_omap app]. apply prefix_cons.
  destruct (outcome (disable_batch w token k batch)); [apply IH|apply prefix_nil].
Qed.

Section RunProperties.

Variable fromisoformat : string → option datetime.

(** [main] in a run that reaches the dispatch loop. *)
Lemma main_dispatching args w tr token users inactive batches :
  inventory fromisoformat args w = IO tr (Ok (token, users, inactive)) →
  inactive ≠ [] →
  dry_run args = false →
  chunked inactive (batch_size args) = Ok batches →
  main fromisoformat args w
  = let loop := dispatch w token 0 batches ≫= λ _, print Completed in
    IO (tr ++ map Stdout (preview_lines args users inactive) ++ trace loop)
       (outcome loop).
Proof.
  intros Hinv Hne Hdry Hchunk. rewrite (main_after_inventory _ _ _ _ _ _ _ Hinv).
  destruct inactive as [|u inactive]; [done|].
  by rewrite (apply_changes_dispatch _ _ _ _ _ Hdry Hchunk).
Qed.

(** C6.  In a run that reaches the dispatch loop, with every earlier
    batch accepted: whatever the status, the batch is posted; on 200 the
    run goes on with the remaining batches; on 207 it prints the
    response text on standard error and goes on with the remaining
    batches; on any other status it prints the failure, raises
    [SystemExit(1)] and the trace ends there, so the bulk calls of the
    run are those of the batches up to this one and the exit code is 1.  Going on means that the next batch,
    when there is one, is announced and posted next. *)
Theorem bulk_response_policy
    (args : Namespace) (w : world) (tr : list event) (token : json)
    (users : list json) (inactive : list inactive_user)
    (done : list (list inactive_user)) (batch : list inactive_user)
    (rest : list (list inactive_user)) (s : Z) (t : string) (b : option json) :
  inventory fromisoformat args w = IO tr (Ok (token, users, inactive)) →
  inactive ≠ [] →
  dry_run args = false →
  chunked inactive (batch_size args) = Ok (done ++ batch :: rest) →
  (∀ i earlier, done !! i = Some earlier →
     accepted (bulk_endpoint w i (map entity_of earlier))) →
  bulk_endpoint w (length done) (map entity_of batch) = Response s t b →
  let run := main fromisoformat args w in
  let call := PostBulk token (map entity_of batch) in
  let remaining :=
    dispatch w token (S (length done)) rest ≫= λ _, print Completed in
  ∃ before,
    bulk_calls before = map (map entity_of) done
    ∧ (s = 200 →
         trace run = before ++ call :: trace remaining
         ∧ outcome run = outcome remaining)
    ∧ (s = 207 →
         trace run = before ++ call :: Stderr (PartialSuccess t) :: trace remaining
         ∧ outcome run = outcome remaining)
    ∧ (s ≠ 200 → s ≠ 207 →
         trace run = before ++ [call; Stderr (BulkFailed s t)]
         ∧ bulk_calls (trace run) = map (map entity_of) (done ++ [batch])
         ∧ outcome run = Raise (SystemExit 1)
         ∧ exit_code (outcome run) = 1)
    ∧ (∀ next rest', rest = next :: rest' →
         ∃ tail,
           trace remaining
           = Stdout (DisablingBatch (length next))
             :: PostBulk token (map entity_of next) :: tail).
Proof.
  intros Hinv Hne Hdry Hchunk Hacc Hresp run call remaining.
  destruct (dispatch_accepted w token done 0 (batch :: rest) Hacc)
    as (before & Hcalls & Hrun).
  cbv zeta in Hrun. change (0 + length done)%nat with (length done) in Hrun.
  assert (run
          = let here := dispatch w token (length done) (batch :: rest)
                        ≫= λ _, print Completed in
            IO ((tr ++ map Stdout (preview_lines args users inactive) ++ before)
                ++ trace here) (outcome here)) as Hmain.
  { subst run. rewrite (main_dispatching _ _ _ _ _ _ _ Hinv Hne Hdry Hchunk).
    cbv zeta. rewrite Hrun, io_bind_prefix. cbn [trace outcome].
    by rewrite <- !app_assoc. }
  rewrite (dispatch_step_then _ _ _ _ _ _ _ _ _ Hresp) in Hmain. cbv zeta in Hmain.
  fold remaining in Hmain.
  set (before' := tr ++ map Stdout (preview_lines args users inactive) ++ before
                  ++ [Stdout (DisablingBatch (length batch))]).
  assert (bulk_calls before' = map (map entity_of) done) as Hbefore.
  { destruct (quiet_inventory fromisoformat args w) as [Hq _].
    rewrite Hinv in Hq. simpl in Hq. subst before'.
    by rewrite !bulk_calls_app, Hq, bulk_calls_stdout, Hcalls, app_nil_r. }
  exists before'.
  split; [|split; [|split; [|split]]].
  - done.
  - intros ->. rewrite Hmain. cbn [Z.eqb Pos.eqb trace outcome].
    subst before'. by rewrite <- !app_assoc.
  - intros ->. rewrite Hmain. cbn [Z.eqb Pos.eqb trace outcome].
    subst before'. by rewrite <- !app_assoc.
  - intros H200 H207. rewrite Hmain.
    destruct (Z.eqb_spec s 200); [done|]. destruct (Z.eqb_spec s 207); [done|].
    cbn [trace outcome]. subst call.
    assert ((tr ++ map Stdout (preview_lines args users inactive) ++ before)
            ++ [Stdout (DisablingBatch (length batch));
                PostBulk token (map entity_of batch); Stderr (BulkFailed s t)]
            = before' ++ [PostBulk token (map entity_of batch);
                          Stderr (BulkFailed s t)]) as ->.
    { subst before'. by rewrite <- !app_assoc. }
    split; [done|]. split; [|done].
    by rewrite bulk_calls_app, Hbefore, map_app.
  - intros next rest' ->. subst remaining.
    destruct (bulk_endpoint w (S (length done)) (map entity_of next))
      as [s' t' b'|] eqn:Hnext.
    + rewrite (dispatch_step_then _ _ _ _ _ _ _ _ _ Hnext). cbv zeta.
      destruct (s' =? 200); [|destruct (s' =? 207)]; by eexists.
    + rewrite dispatch_cons, (disable_batch_no_response _ _ _ _ Hnext).
      by eexists.
Qed.

(** The batches of [chunked], joined: all the records for a size of at
    least 1, nothing for a negative size. *)
Lemma chunked_concat {A : Type} (records : list A) (n : Z) batches :
  chunked records n = Ok batches →
  (1 ≤ n ∧ concat batches = records) ∨ (n < 0 ∧ batches = []).
Proof.
  intros Hchunk. destruct (Z.lt_trichotomy n 0) as [Hn|[->|Hn]].
  - right. split; [done|]. revert Hchunk. unfold chunked, py_range, range_length.
    destruct (Z.eqb_spec n 0); [lia|].
    destruct (Z.ltb_spec 0 n); [lia|].
    destruct (Z.ltb_spec (Z.of_nat (length records)) 0); [lia|].
    by intros [= <-].
  - discriminate Hchunk.
  - left. split; [lia|]. rewrite chunked_windows in Hchunk by lia.
    injection Hchunk as <-. rewrite concat_windows. apply take_ge.
    pose proof (ceil_div_bounds (Z.of_nat (length records)) n ltac:(lia)).
    nia.
Qed.

(** A loop that returns normally has posted every batch. *)
Lemma dispatch_ok_calls w token batches : ∀ k,
  outcome (dispatch w token k batches) = Ok tt →
  bulk_calls (trace (dispatch w token k batches)) = map (map entity_of) batches.
Proof.
  induction batches as [|batch rest IH]; intros k; [done|].
  rewrite dispatch_cons.
  change (print (DisablingBatch (length batch)))
    with (IO [Stdout (DisablingBatch (length batch))] (Ok tt)).
  rewrite io_bind_ok. cbn [trace outcome].
  rewrite trace_bind, outcome_bind, !bulk_calls_app, disable_batch_calls.
  destruct (outcome (disable_batch w token k batch)) as [[]|e]; [|done].
  intros Hok. cbn [bulk_calls omap list_omap app map]. by rewrite (IH _ Hok).
Qed.

(** What the last part of a run that is not a dry run posts: never
    anything but the entities of the records it is handed, in order,
    and all of them when the batch size is at least 1 and it returns
    normally. *)
Lemma apply_changes_posts args w token inactive :
  dry_run args = false →
  let rest := apply_changes args w token inactive in
  concat (bulk_calls (trace rest)) `prefix_of` map entity_of inactive
  ∧ (1 ≤ batch_size args → outcome rest = Ok tt →
     concat (bulk_calls (trace rest)) = map entity_of inactive).
Proof.
  intros Hdry rest. subst rest.
  destruct (chunked inactive (batch_size args)) as [batches|e] eqn:Hchunk.
  - rewrite (apply_changes_dispatch _ _ _ _ _ Hdry Hchunk).
    rewrite trace_bind, outcome_bind, bulk_calls_app.
    assert (bulk_calls match outcome (dispatch w token 0 batches) with
                       | Ok _ => trace (print Completed)
                       | Raise _ => []
                       end = []) as -> by (by destruct (outcome _)).
    rewrite app_nil_r. split.
    + destruct (dispatch_calls_prefix w token batches 0) as [later Hlater].
      destruct (chunked_concat _ _ _ Hchunk) as [[_ Hall]|[_ ->]].
      * exists (concat later).
        by rewrite <- Hall, concat_map, Hlater, concat_app.
      * apply prefix_nil.
    + intros Hsize Hok.
      destruct (outcome (dispatch w token 0 batches)) as [[]|e] eqn:Hout; [|done].
      rewrite (dispatch_ok_calls _ _ _ _ Hout).
      destruct (chunked_concat _ _ _ Hchunk) as [[_ Hall]|[? _]]; [|lia].
      by rewrite <- concat_map, Hall.
  - unfold apply_changes. rewrite Hdry, Hchunk, io_lift_raise. cbn.
    split; [apply prefix_nil|done].
Qed.

(** C7.  With the dry-run flag set no run issues a bulk call.  When the
    first part of [main] succeeds, the list it hands on is the result of
    [filter_inactive_users], the run returns normally, and its standard
    output is the report of that list followed, when there is an
    inactive user, by the dry-run notice.  The report is: the number of
    users fetched and the number of records of the list; then, unless
    the list is empty, the header, one line for each of the first five
    records with its id, its e-mail (or none) and its last login (or
    none), and the number of the records not shown when there are more
    than five.  The run without the flag, over the same inventory,
    prints the same report first and posts nothing but the entities of
    the records of that list, from the first on and in order, each with
    the record's id as identifier and its e-mail, or else its id, as
    title; it posts all of them when the batch size is at least 1 and
    it returns normally. *)
Theorem dry_run_matches_classification (args : Namespace) (w : world) :
  dry_run args = true →
  bulk_calls (trace (main fromisoformat args w)) = []
  ∧ (∀ tr token users inactive,
       inventory fromisoformat args w = IO tr (Ok (token, users, inactive)) →
       let shown (r : inactive_user) :=
         SampleLine (rec_id r)
                    (if truthy (rec_email r) then Some (rec_email r) else None)
                    (rec_last_login r) in
       let posted (r : inactive_user) :=
         {| identifier := rec_id r;
            title := if truthy (rec_email r) then rec_email r else rec_id r |} in
       let report :=
         Found (length users) (length inactive) (days_inactive args)
         :: match inactive with
            | [] => []
            | _ =>
                SampleHeader
                :: map shown (take 5 inactive)
                ++ (if (5 <? length inactive)%nat
                    then [AndMore (length inactive - 5)] else [])
            end in
       let applied := main fromisoformat (set_dry_run false args) w in
       filter_inactive_users fromisoformat (clock w) users (org_id args)
         (days_inactive args) = Ok inactive
       ∧ outcome (main fromisoformat args w) = Ok tt
       ∧ stdout_lines (trace (main fromisoformat args w))
         = report ++ match inactive with [] => [] | _ => [DryRunEnabled] end
       ∧ (∃ progress, stdout_lines (trace applied) = report ++ progress)
       ∧ concat (bulk_calls (trace applied)) `prefix_of` map posted inactive
       ∧ (1 ≤ batch_size args → outcome applied = Ok tt →
          concat (bulk_calls (trace applied)) = map posted inactive)).
Proof.
  intros Hdry.
  destruct (quiet_inventory fromisoformat args w) as [Hqb Hqs].
  split.
  - destruct (inventory fromisoformat args w) as [tr [[[token users] inactive]|e]]
      eqn:Hinv.
    + rewrite (main_after_inventory _ _ _ _ _ _ _ Hinv). simpl in Hqb.
      destruct inactive as [|u inactive]; cbn [trace outcome].
      * by rewrite bulk_calls_app, Hqb, bulk_calls_stdout.
      * unfold apply_changes. rewrite Hdry.
        by rewrite !bulk_calls_app, Hqb, bulk_calls_stdout.
    + by rewrite (main_inventory_raises _ _ _ _ _ Hinv).
  - intros tr token users inactive Hinv shown posted report applied.
    rewrite Hinv in Hqb, Hqs. simpl in Hqb, Hqs.
    split; [by apply (inventory_classifies _ _ _ _ _ _ _ Hinv)|].
    assert (preview_lines args users inactive = report) as Hreport by done.
    assert (map entity_of inactive = map posted inactive) as Hposted by done.
    rewrite (main_after_inventory _ _ _ _ _ _ _ Hinv), Hreport.
    split; [|split].
    + destruct inactive; [done|]. unfold apply_changes. by rewrite Hdry.
    + destruct inactive as [|u inactive]; cbn [trace outcome].
      * by rewrite stdout_lines_app, Hqs, stdout_lines_stdout.
      * unfold apply_changes. rewrite Hdry.
        by rewrite !stdout_lines_app, Hqs, stdout_lines_stdout.
    + subst applied.
      assert (inventory fromisoformat (set_dry_run false args) w
              = IO tr (Ok (token, users, inactive))) as Hinv' by exact Hinv.
      rewrite (main_after_inventory _ _ _ _ _ _ _ Hinv').
      change (preview_lines (set_dry_run false args) users inactive)
        with (preview_lines args users inactive).
      rewrite Hreport, <- Hposted.
      destruct inactive as [|u inactive]; cbn [trace outcome].
      { rewrite bulk_calls_app, stdout_lines_app, Hqb, Hqs, bulk_calls_stdout,
          stdout_lines_stdout.
        split; [by exists []|]. by split. }
      set (l := u :: inactive) in *.
      destruct (apply_changes_posts (set_dry_run false args) w token l eq_refl)
        as [Hprefix Hall].
      rewrite !bulk_calls_app, !stdout_lines_app, Hqb, Hqs, bulk_calls_stdout,
        stdout_lines_stdout.
      split; [by eexists|]. split; [exact Hprefix|exact Hall].
Qed.

(** C10.  Nothing between the command line and [chunked] checks the
    batch size.  A negative size yields no batch, and a run that reaches
    the loop with one posts nothing, prints the completion line last and
    returns normally (exit code 0), although there are inactive users.
    A size of zero raises [ValueError] instead of yielding batches, and
    the run ends on that exception before any bulk call. *)
Theorem chunked_unchecked_size :
  (∀ (A : Type) (records : list A) (size : Z),
     size < 0 → chunked records size = Ok [])
  ∧ (∀ (A : Type) (records : list A), chunked records 0 = Raise ValueError)
  ∧ (∀ args w tr token users inactive,
       inventory fromisoformat args w = IO tr (Ok (token, users, inactive)) →
       inactive ≠ [] →
       dry_run args = false →
       let run := main fromisoformat args w in
       (batch_size args < 0 →
          bulk_calls (trace run) = []
          ∧ last (trace run) = Some (Stdout Completed)
          ∧ outcome run = Ok tt
          ∧ exit_code (outcome run) = 0)
       ∧ (batch_size args = 0 →
          bulk_calls (trace run) = []
          ∧ outcome run = Raise ValueError
          ∧ exit_code (outcome run) = 1)).
Proof.
  assert (∀ (A : Type) (records : list A) size,
            size < 0 → chunked records size = Ok []) as Hneg.
  { intros A records size Hsize. unfold chunked, py_range, range_length.
    destruct (Z.eqb_spec size 0); [lia|].
    destruct (Z.ltb_spec 0 size); [lia|].
    destruct (Z.ltb_spec (Z.of_nat (length records)) 0); [lia|done]. }
  split; [exact Hneg|]. split; [done|].
  intros args w tr token users inactive Hinv Hne Hdry run. subst run.
  destruct (quiet_inventory fromisoformat args w) as [Hqb _].
  rewrite Hinv in Hqb. cbn [trace] in Hqb.
  split.
  - intros Hsize.
    rewrite (main_dispatching _ _ _ _ _ _ _ Hinv Hne Hdry (Hneg _ inactive _ Hsize)).
    cbv zeta.
    change (dispatch w token 0 [] ≫= λ _, print Completed)
      with (IO [Stdout Completed] (Ok tt)).
    cbn [trace outcome].
    split; [by rewrite !bulk_calls_app, Hqb, bulk_calls_stdout|].
    split; [|done]. by rewrite !app_assoc, last_snoc.
  - intros Hsize. rewrite (main_after_inventory _ _ _ _ _ _ _ Hinv).
    destruct inactive as [|u inactive]; [done|].
    unfold apply_changes. rewrite Hdry, Hsize.
    change (chunked (u :: inactive) 0)
      with (@Raise (list (list inactive_user)) ValueError).
    rewrite io_lift_raise. cbn [trace outcome].
    split; [|done].
    by rewrite !bulk_calls_app, Hqb, bulk_calls_stdout.
Qed.

End RunProperties.

(** * The model on concrete inputs *)

(** 2024-01-01 is day 738886 of the proleptic Gregorian calendar. *)
Example iso_basic_date :
  iso_basic "2024-01-01" = Some {| wall := 738885 * US_PER_DAY; tzinfo := None |}.
Proof. reflexivity. Qed.

Example iso_basic_offset :
  iso_basic "2024-03-01T12:30:00+05:30"
  = Some {| wall := (738945 * 86400 + 45000) * 1000000;
            tzinfo := Some (19800 * 1000000) |}.
Proof. reflexivity. Qed.

Example iso_basic_rejects :
  iso_basic "2023-02-29" = None ∧ iso_basic "yesterday" = None
  ∧ iso_basic "2024-13-01" = None.
Proof. repeat split; reflexivity. Qed.

(** The scenario of the specification: 45 days before 2024-06-01 is
    2024-04-17; A and C are reported, B is active, D is left out. *)
Example scenario_threshold : threshold_of sample_now 45 = Ok (utc 738992).
Proof. reflexivity. Qed.

Example scenario_threshold_date :
  iso_basic "2024-04-17" = Some {| wall := aware_wall (utc 738992); tzinfo := None |}.
Proof. reflexivity. Qed.

Example scenario_classification :
  filter_inactive_users iso_basic sample_now
    [JObj user_a; JObj user_b; JObj user_c; JObj user_d] None 45
  = Ok [record_a; record_c].
Proof. vm_compute. reflexivity. Qed.

(** A last login exactly at the threshold instant counts as inactive,
    one microsecond later as active. *)
Example scenario_boundary :
  due (Some (utc 738992)) (utc 738992) = true
  ∧ due (Some {| aware_wall := 738992 * US_PER_DAY + 1; utcoffset := 0 |})
        (utc 738992) = false
  ∧ classified_inactive iso_basic sample_now 45 None
      (JObj (user_dict "F" "Active" [member "org-1" "2024-04-17"])) = true.
Proof. repeat split; reflexivity. Qed.

(** 23 inactive users in batches of 20. *)
Example scenario_batches :
  (batches ← chunked (seq 0 23) 20; Ok (map length batches)) = Ok [20%nat; 3%nat].
Proof. reflexivity. Qed.

Example sample_inventory size dry bulk :
  inventory iso_basic (sample_args size dry) (sample_world bulk)
  = IO sample_trace (Ok (JStr "token", sample_users, [record_a; record_c; record_e])).
Proof. vm_compute. reflexivity. Qed.

(** ** Instances of the theorems *)

Lemma chunked_partition_witness :
  1 ≤ 3
  ∧ ∃ batches,
      chunked [record_a; record_b; record_c; record_e; record_a; record_c; record_e] 3
      = Ok batches
      ∧ Z.of_nat (length batches) = ceil_div 7 3
      ∧ concat batches
        = [record_a; record_b; record_c; record_e; record_a; record_c; record_e]
      ∧ (∀ i batch, batches !! i = Some batch → (S i < length batches)%nat →
           Z.of_nat (length batch) = 3)
      ∧ (∀ i batch, batches !! i = Some batch →
           1 ≤ Z.of_nat (length batch) ≤ 3).
Proof.
  split; [lia|].
  apply (chunked_partition
           [record_a; record_b; record_c; record_e; record_a; record_c; record_e] 3).
  lia.
Defined.

Lemma select_last_login_unmatched_filter_witness :
  select_last_login iso_basic (JObj user_a) (Some "org-2") = Ok None
  ∧ (∀ threshold inactive,
       is_disabled (JObj user_a) = Ok false →
       classify_user iso_basic (Some "org-2") threshold inactive (JObj user_a)
       = Ok (inactive ++ [record_of user_a None])).
Proof.
  apply (select_last_login_unmatched_filter iso_basic user_a
           [member "org-1" "2024-03-01"] "org-2").
  - discriminate.
  - reflexivity.
  - repeat constructor. eexists. split; [reflexivity|]. vm_compute. discriminate.
Defined.

Lemma disabled_user_excluded_witness :
  (∀ threshold inactive,
     classify_user iso_basic None threshold inactive (JObj user_d) = Ok inactive)
  ∧ filter_inactive_users iso_basic sample_now
      ([JObj user_a; JObj user_b; JObj user_c] ++ JObj user_d :: [JObj user_e]) None 45
    = filter_inactive_users iso_basic sample_now
        ([JObj user_a; JObj user_b; JObj user_c] ++ [JObj user_e]) None 45.
Proof.
  apply (disabled_user_excluded iso_basic user_d "Disabled"); reflexivity.
Defined.

Lemma classify_threshold_witness :
  (classified_inactive iso_basic sample_now 45 None (JObj user_a) = true
   ↔ Some (utc 738945) = None
     ∨ ∃ t, Some (utc 738945) = Some t ∧ instant t ≤ sample_now - 45 * US_PER_DAY)
  ∧ (∀ inactive,
       classify_user iso_basic None (utc 738992) inactive (JObj user_a)
       = Ok (if due (Some (utc 738945)) (utc 738992)
             then inactive ++ [record_of user_a (Some (utc 738945))] else inactive))
  ∧ filter_inactive_users iso_basic sample_now [JObj user_a] None 45
    = Ok (if due (Some (utc 738945)) (utc 738992)
             && truthy (rec_id (record_of user_a (Some (utc 738945))))
          then [record_of user_a (Some (utc 738945))] else []).
Proof.
  apply (classify_threshold iso_basic user_a sample_now 45 None
           (utc 738992) (Some (utc 738945))); reflexivity.
Defined.

(** C1 as stated fails.  B, who logged in 12 days before [now], is
    classified inactive at 10 days and is not at 45 days. *)
Lemma raising_days_reactivates :
  10 < 45
  ∧ classified_inactive iso_basic sample_now 10 None (JObj user_b) = true
  ∧ classified_inactive iso_basic sample_now 45 None (JObj user_b) = false.
Proof. split; [lia|]. split; reflexivity. Defined.

Lemma classify_antitone_witness :
  10 ≤ 45
  ∧ threshold_of sample_now 10 = Ok (utc 739027)
  ∧ classified_inactive iso_basic sample_now 45 None (JObj user_a) = true
  ∧ classified_inactive iso_basic sample_now 10 None (JObj user_a) = true.
Proof.
  split; [lia|]. split; [reflexivity|]. split; [reflexivity|].
  apply (classify_antitone iso_basic (JObj user_a) sample_now 45 10 None (utc 739027)).
  - lia.
  - reflexivity.
  - reflexivity.
Defined.

Lemma bulk_response_policy_witness :
  let w := sample_world partial_then_failure in
  let run := main iso_basic (sample_args 2 false) w in
  let call := PostBulk (JStr "token") (map entity_of [record_e]) in
  let remaining :=
    dispatch w (JStr "token") 2 [] ≫= λ _, print Completed in
  ∃ before,
    bulk_calls before = map (map entity_of) [[record_a; record_c]]
    ∧ (500 = 200 →
         trace run = before ++ call :: trace remaining
         ∧ outcome run = outcome remaining)
    ∧ (500 = 207 →
         trace run
         = before ++ call :: Stderr (PartialSuccess "unavailable") :: trace remaining
         ∧ outcome run = outcome remaining)
    ∧ (500 ≠ 200 → 500 ≠ 207 →
         trace run = before ++ [call; Stderr (BulkFailed 500 "unavailable")]
         ∧ bulk_calls (trace run)
           = map (map entity_of) ([[record_a; record_c]] ++ [[record_e]])
         ∧ outcome run = Raise (SystemExit 1)
         ∧ exit_code (outcome run) = 1)
    ∧ (∀ next rest', [] = next :: rest' →
         ∃ tail,
           trace remaining
           = Stdout (DisablingBatch (length next))
             :: PostBulk (JStr "token") (map entity_of next) :: tail).
Proof.
  apply (bulk_response_policy iso_basic (sample_args 2 false)
           (sample_world partial_then_failure) sample_trace (JStr "token")
           sample_users [record_a; record_c; record_e]
           [[record_a; record_c]] [record_e] [] 500 "unavailable" None).
  - apply sample_inventory.
  - discriminate.
  - reflexivity.
  - reflexivity.
  - intros [|i] earlier Hi; [|destruct i; discriminate Hi].
    exists "partial", None. by right.
  - reflexivity.
Defined.

Lemma crowd_inventory (size : Z) (dry : bool) :
  inventory iso_basic (sample_args size dry) crowd_world
  = IO sample_trace (Ok (JStr "token", crowd, crowd_records)).
Proof. reflexivity. Qed.

Lemma dry_run_matches_classification_witness :
  let args := sample_args 3 true in
  dry_run args = true
  ∧ bulk_calls (trace (main iso_basic args crowd_world)) = []
  ∧ outcome (main iso_basic args crowd_world) = Ok tt
  ∧ stdout_lines (trace (main iso_basic args crowd_world))
    = [Found 8 7 45; SampleHeader;
       SampleLine (JStr "U1") (Some (JStr "U1@example.com")) None;
       SampleLine (JStr "U2") None None;
       SampleLine (JStr "U3") (Some (JStr "U3@example.com")) None;
       SampleLine (JStr "U4") (Some (JStr "U4@example.com")) None;
       SampleLine (JStr "U5") (Some (JStr "U5@example.com")) None;
       AndMore 2; DryRunEnabled]
  ∧ concat (bulk_calls (trace (main iso_basic (set_dry_run false args) crowd_world)))
    = [ {| identifier := JStr "U1"; title := JStr "U1@example.com" |};
        {| identifier := JStr "U2"; title := JStr "U2" |};
        {| identifier := JStr "U3"; title := JStr "U3@example.com" |};
        {| identifier := JStr "U4"; title := JStr "U4@example.com" |};
        {| identifier := JStr "U5"; title := JStr "U5@example.com" |};
        {| identifier := JStr "U6"; title := JStr "U6@example.com" |};
        {| identifier := JStr "U7"; title := JStr "U7@example.com" |} ].
Proof.
  intros args. split; [reflexivity|].
  destruct (dry_run_matches_classification iso_basic args crowd_world eq_refl)
    as [Hcalls Hrun].
  destruct (Hrun _ _ _ _ (crowd_inventory 3 true))
    as (_ & Hout & Hlines & _ & _ & Hposted).
  split; [exact Hcalls|]. split; [exact Hout|]. split; [exact Hlines|].
  apply Hposted; [unfold args; simpl; lia|reflexivity].
Defined.

(** ** Instances of C9 and C10 *)

(** C9 as stated fails.  [2024-061T12:30:00+05:30] is an ISO-8601
    timestamp with a UTC offset, written with an ordinal date (day 61 of
    2024, the first of March).  [datetime.fromisoformat] does not read
    ordinal dates and raises [ValueError], which [iso_basic] renders, so
    [parse_ts] returns [None] and the offset is lost; the same instant
    written with a calendar date is read. *)
Lemma ordinal_date_with_offset_unparsed :
  iso_basic "2024-061T12:30:00+05:30" = None
  ∧ parse_ts iso_basic (JStr "2024-061T12:30:00+05:30") = Ok None
  ∧ parse_ts iso_basic (JStr "2024-03-01T12:30:00+05:30")
    = Ok (Some {| aware_wall := (738945 * 86400 + 45000) * 1000000;
                  utcoffset := 19800 * 1000000 |}).
Proof. split; [|split]; reflexivity. Defined.

Lemma parse_ts_total_witness :
  parse_ts iso_basic (JStr "2024-03-01T12:30:00+05:30")
  = Ok (Some {| aware_wall := (738945 * 86400 + 45000) * 1000000;
                utcoffset := 19800 * 1000000 |})
  ∧ parse_ts iso_basic (JStr "2024-03-01")
    = Ok (Some {| aware_wall := 738945 * US_PER_DAY; utcoffset := 0 |})
  ∧ parse_ts iso_basic (JStr "last tuesday") = Ok None.
Proof.
  split; [|split].
  - apply (parse_ts_total iso_basic "2024-03-01T12:30:00+05:30");
      [discriminate|reflexivity].
  - apply (parse_ts_total iso_basic "2024-03-01"); [discriminate|reflexivity].
  - destruct (parse_ts_total iso_basic "last tuesday") as (_ & [_ Hnone] & _).
    apply Hnone. right. reflexivity.
Defined.

Lemma chunked_unchecked_size_witness :
  let w := sample_world partial_then_failure in
  let run := main iso_basic (sample_args (-20) false) w in
  let run0 := main iso_basic (sample_args 0 false) w in
  (bulk_calls (trace run) = []
   ∧ last (trace run) = Some (Stdout Completed)
   ∧ outcome run = Ok tt
   ∧ exit_code (outcome run) = 0)
  ∧ (bulk_calls (trace run0) = []
     ∧ outcome run0 = Raise ValueError
     ∧ exit_code (outcome run0) = 1).
Proof.
  intros w run run0.
  destruct (chunked_unchecked_size iso_basic) as (_ & _ & Hrun).
  split.
  - apply (Hrun (sample_args (-20) false) w sample_trace (JStr "token")
             sample_users [record_a; record_c; record_e]).
    + apply sample_inventory.
    + discriminate.
    + reflexivity.
    + reflexivity.
  - apply (Hrun (sample_args 0 false) w sample_trace (JStr "token")
             sample_users [record_a; record_c; record_e]).
    + apply sample_inventory.
    + discriminate.
    + reflexivity.
    + reflexivity.
Defined.

(** * Further properties *)

(** ** Loops that only append *)

Lemma for_each_ext {X Y} (body body' : Y → X → result Y) acc xs :
  (∀ a x, body a x = body' a x) →
  for_each body acc xs = for_each body' acc xs.
Proof.
  intros Hext. revert acc. induction xs as [|x xs IH]; intros acc; simpl; [done|].
  rewrite Hext. destruct (body' acc x); simpl; [apply IH|done].
Qed.

(** A loop whose body only appends to its accumulator can be run from
    the empty accumulator. *)
Lemma for_each_appends {X Y} (body : list Y → X → result (list Y)) :
  (∀ acc x, body acc x = (r ← body [] x; Ok (acc ++ r))) →
  ∀ xs acc, for_each body acc xs = (r ← for_each body [] xs; Ok (acc ++ r)).
Proof.
  intros Happ. induction xs as [|x xs IH]; intros acc; simpl.
  - by rewrite app_nil_r.
  - rewrite (Happ acc x). destruct (body [] x) as [r|e]; simpl; [|done].
    rewrite (IH (acc ++ r)), (IH r).
    destruct (for_each body [] xs) as [r'|e]; simpl; [|done].
    by rewrite app_assoc.
Qed.

Section Selection.

Variable fromisoformat : string → option datetime.

Lemma filtered_candidate_appends org acc entry :
  filtered_candidate fromisoformat org acc entry
  = (r ← filtered_candidate fromisoformat org [] entry; Ok (acc ++ r)).
Proof.
  unfold filtered_candidate.
  destruct (if org_truthy org then _ else _) as [[|]|e]; simpl;
    [by rewrite app_nil_r| |done].
  destruct (py_get entry "lastLoginAt") as [ts|e]; simpl; [|done].
  destruct (parse_ts fromisoformat ts) as [[t|]|e]; simpl;
    [done|by rewrite app_nil_r|done].
Qed.

(** Without a filter the two loop bodies are the same function. *)
Lemma filtered_candidate_unfiltered org acc entry :
  org_truthy org = false →
  filtered_candidate fromisoformat org acc entry
  = any_candidate fromisoformat acc entry.
Proof. intros H. unfold filtered_candidate, any_candidate. by rewrite H. Qed.

(** When the second loop runs it finds what the first one found:
    nothing. *)
Lemma fallback_finds_nothing org entries :
  for_each (filtered_candidate fromisoformat org) [] entries = Ok [] →
  org_truthy org = false →
  for_each (any_candidate fromisoformat) [] entries = Ok [].
Proof.
  intros Hfirst Horg. rewrite <- Hfirst. symmetry.
  apply for_each_ext. intros. by apply filtered_candidate_unfiltered.
Qed.

Lemma select_last_login_first_pass (user : json) (org : option string) :
  select_last_login fromisoformat user org
  = (entries ← memberships user;
     candidates ← for_each (filtered_candidate fromisoformat org) [] entries;
     Ok (py_max candidates)).
Proof.
  unfold select_last_login, memberships.
  destruct (py_get user "orgMembers") as [members|e]; simpl; [|done].
  destruct (py_iter _) as [entries|e]; simpl; [|done].
  destruct (for_each _ [] entries) as [[|t candidates]|e] eqn:Hfirst; simpl;
    [|done|done].
  destruct (org_truthy org) eqn:Horg; simpl; [done|].
  by rewrite (fallback_finds_nothing org entries Hfirst Horg).
Qed.

(** X1.  The second loop of [select_last_login] never finds a
    candidate: it runs only when there is no filter and the first loop
    found none, and then it goes through the same entries in the same
    way.  The function is its first loop followed by [max]. *)
Theorem select_last_login_single_pass (user : json) (org : option string) :
  (∀ entries,
     for_each (filtered_candidate fromisoformat org) [] entries = Ok [] →
     org_truthy org = false →
     for_each (any_candidate fromisoformat) [] entries = Ok [])
  ∧ select_last_login fromisoformat user org
    = (entries ← memberships user;
       candidates ← for_each (filtered_candidate fromisoformat org) [] entries;
       Ok (py_max candidates)).
Proof.
  split; [intros entries; apply fallback_finds_nothing|].
  apply select_last_login_first_pass.
Qed.

Lemma max_from_spec rest : ∀ best t,
  max_from best rest = t →
  (t = best ∧ ∀ x, x ∈ rest → instant x ≤ instant best)
  ∨ (instant best < instant t
     ∧ ∃ l1 l2, rest = l1 ++ t :: l2
         ∧ (∀ x, x ∈ l1 → instant x < instant t)
         ∧ (∀ x, x ∈ l2 → instant x ≤ instant t)).
Proof.
  induction rest as [|y rest IH]; intros best t; simpl.
  - intros <-. left. split; [done|]. intros x Hx. by apply elem_of_nil in Hx.
  - unfold aware_gt. intros Ht.
    destruct (Z.ltb_spec (instant best) (instant y)) as [Hlt|Hge].
    + right. destruct (IH y t Ht) as [[-> Hall]|(Hlt' & l1 & l2 & Hrest & H1 & H2)].
      * split; [done|]. exists [], rest. split; [done|]. split; [|done].
        intros x Hx. by apply elem_of_nil in Hx.
      * split; [lia|]. exists (y :: l1), l2. split; [by rewrite Hrest|].
        split; [|done].
        intros x [->|Hx]%elem_of_cons; [done|by apply H1].
    + destruct (IH best t Ht) as [[Heq Hall]|(Hlt' & l1 & l2 & Hrest & H1 & H2)].
      * left. split; [done|]. intros x [->|Hx]%elem_of_cons; [done|by apply Hall].
      * right. split; [done|]. exists (y :: l1), l2. split; [by rewrite Hrest|].
        split; [|done].
        intros x [->|Hx]%elem_of_cons; [lia|by apply H1].
Qed.

(** [max] returns the first element that no other element exceeds. *)
Lemma py_max_first_greatest candidates t :
  py_max candidates = Some t →
  ∃ l1 l2, candidates = l1 ++ t :: l2
    ∧ (∀ x, x ∈ l1 → instant x < instant t)
    ∧ (∀ x, x ∈ l2 → instant x ≤ instant t).
Proof.
  destruct candidates as [|best rest]; [done|]. simpl. intros [= Hmax].
  destruct (max_from_spec rest best t Hmax)
    as [[-> Hall]|(Hlt & l1 & l2 & Hrest & H1 & H2)].
  - exists [], rest. split; [done|]. split; [|done].
    intros x Hx. by apply elem_of_nil in Hx.
  - exists (best :: l1), l2. split; [by rewrite Hrest|]. split; [|done].
    intros x [->|Hx]%elem_of_cons; [done|by apply H1].
Qed.

(** What one turn of the first loop contributes. *)
Lemma filtered_candidate_contribution org entry r :
  filtered_candidate fromisoformat org [] entry = Ok r →
  (considered org entry = true ∧ ∃ parsed,
     entry_login fromisoformat entry = Ok parsed
     ∧ r = match parsed with Some t => [t] | None => [] end)
  ∨ (considered org entry = false ∧ r = []).
Proof.
  unfold filtered_candidate, considered, entry_login.
  destruct (org_truthy org); simpl.
  - destruct (py_get entry "orgId") as [v|e]; simpl; [|done].
    destruct (differs_from v org); simpl; [intros [= <-]; by right|].
    destruct (py_get entry "lastLoginAt") as [ts|e]; simpl; [|done].
    destruct (parse_ts fromisoformat ts) as [parsed|e]; simpl; [|done].
    intros [= <-]. left. split; [done|]. exists parsed. by destruct parsed.
  - destruct (py_get entry "lastLoginAt") as [ts|e]; simpl; [|done].
    destruct (parse_ts fromisoformat ts) as [parsed|e]; simpl; [|done].
    intros [= <-]. left. split; [done|]. exists parsed. by destruct parsed.
Qed.

(** The candidates of the first loop are the timestamps of the entries
    it considers, and every considered entry has been parsed. *)
Lemma first_pass_candidates org entries : ∀ candidates,
  for_each (filtered_candidate fromisoformat org) [] entries = Ok candidates →
  (∀ t, t ∈ candidates ↔
        ∃ e, e ∈ entries ∧ considered org e = true
             ∧ entry_login fromisoformat e = Ok (Some t))
  ∧ (∀ e, e ∈ entries → considered org e = true →
          ∃ parsed, entry_login fromisoformat e = Ok parsed).
Proof.
  induction entries as [|e entries IH]; intros candidates; simpl.
  - intros [= <-]. split.
    + intros t. split; [by intros ?%elem_of_nil|].
      by intros (e & ?%elem_of_nil & _).
    + by intros e ?%elem_of_nil.
  - destruct (filtered_candidate fromisoformat org [] e) as [r|err] eqn:Hr;
      simpl; [|done].
    rewrite (for_each_appends _ (filtered_candidate_appends org)).
    destruct (for_each _ [] entries) as [c|err] eqn:Hc; simpl; [|done].
    intros [= <-]. destruct (IH c eq_refl) as [IHc IHp].
    apply filtered_candidate_contribution in Hr
      as [(Hcons & parsed & Hlogin & ->)|(Hcons & ->)].
    + split.
      * intros t. rewrite elem_of_app, IHc. split.
        -- intros [Ht|(e' & He' & ? & ?)].
           ++ exists e. split; [by left|]. split; [done|].
              destruct parsed; [|by apply elem_of_nil in Ht].
              apply list_elem_of_singleton in Ht as ->. done.
           ++ exists e'. split; [by right|done].
        -- intros (e' & [->|He']%elem_of_cons & Hc' & Hl').
           ++ left. rewrite Hlogin in Hl'. injection Hl' as ->.
              by apply list_elem_of_singleton.
           ++ right. eauto.
      * intros e' [->|He']%elem_of_cons Hc'; [eauto|by apply IHp].
    + split.
      * intros t. simpl. rewrite IHc. split.
        -- intros (e' & He' & ? & ?). exists e'. split; [by right|done].
        -- intros (e' & [->|He']%elem_of_cons & Hc' & Hl'); [congruence|eauto].
      * intros e' [->|He']%elem_of_cons Hc'; [congruence|by apply IHp].
Qed.

(** X2.  When [select_last_login] returns a timestamp, it is the
    timestamp of a membership the filter lets through and no such
    membership has a later one; when it returns [None], no membership
    the filter lets through has a timestamp. *)
Theorem select_last_login_latest
    (user : json) (org : option string) (last_login : option aware) :
  select_last_login fromisoformat user org = Ok last_login →
  ∃ entries,
    memberships user = Ok entries
    ∧ match last_login with
      | Some t =>
          (∃ e, e ∈ entries ∧ considered org e = true
                ∧ entry_login fromisoformat e = Ok (Some t))
          ∧ (∀ e t', e ∈ entries → considered org e = true →
                     entry_login fromisoformat e = Ok (Some t') →
                     instant t' ≤ instant t)
      | None =>
          ∀ e, e ∈ entries → considered org e = true →
               entry_login fromisoformat e = Ok None
      end.
Proof.
  rewrite select_last_login_first_pass.
  destruct (memberships user) as [entries|err]; simpl; [|done].
  destruct (for_each _ [] entries) as [candidates|err] eqn:Hpass; simpl; [|done].
  intros [= Hmax]. exists entries. split; [done|].
  destruct (first_pass_candidates org entries candidates Hpass) as [Hin Hparsed].
  destruct last_login as [t|].
  - apply py_max_first_greatest in Hmax as (l1 & l2 & -> & H1 & H2). split.
    + apply Hin. rewrite elem_of_app, elem_of_cons. auto.
    + intros e t' He Hc Hl.
      assert (t' ∈ l1 ++ t :: l2) as Ht' by (apply Hin; eauto).
      apply elem_of_app in Ht' as [Ht'|[->|Ht']%elem_of_cons];
        [apply H1 in Ht'; lia|lia|by apply H2].
  - destruct candidates; [|done].
    intros e He Hc. destruct (Hparsed e He Hc) as [[t|] Hl]; [|done].
    assert (t ∈ @nil aware) as Hbad by (apply Hin; eauto).
    by apply elem_of_nil in Hbad.
Qed.

End Selection.

(** ** The classification loop *)

Section Filtering.

Variable fromisoformat : string → option datetime.

Lemma classify_user_appends org threshold acc user :
  classify_user fromisoformat org threshold acc user
  = (r ← classify_user fromisoformat org threshold [] user; Ok (acc ++ r)).
Proof.
  unfold classify_user.
  destruct (is_disabled user) as [[|]|e]; simpl; [by rewrite app_nil_r| |done].
  destruct (select_last_login fromisoformat user org) as [last_login|e]; simpl;
    [|done].
  destruct (match last_login with None => true | Some t => aware_le t threshold end);
    simpl; [|by rewrite app_nil_r].
  destruct (py_get user "id") as [uid|e]; simpl; [|done].
  by destruct (py_get user "email") as [email|e].
Qed.

(** What one user contributes to the list of records. *)
Lemma classify_user_contribution org threshold user r :
  classify_user fromisoformat org threshold [] user = Ok r →
  ∃ o, user = JObj o
    ∧ ((is_disabled user = Ok true ∧ r = [])
       ∨ (is_disabled user = Ok false
          ∧ ∃ last_login,
              select_last_login fromisoformat user org = Ok last_login
              ∧ r = if due last_login threshold
                    then [record_of o last_login] else [])).
Proof.
  intros Hr.
  destruct (is_disabled user) as [flag|e] eqn:Hdis;
    [|by unfold classify_user in Hr; rewrite Hdis in Hr].
  destruct (is_disabled_dict _ _ Hdis) as [o ->]. exists o. split; [done|].
  destruct flag.
  - left. rewrite (classify_user_disabled _ _ _ _ _ Hdis) in Hr. by injection Hr.
  - right. split; [done|].
    destruct (select_last_login fromisoformat (JObj o) org) as [last_login|e]
      eqn:Hsel; [|by unfold classify_user in Hr; rewrite Hdis, Hsel in Hr].
    exists last_login. split; [done|].
    rewrite (classify_user_enabled _ _ _ _ _ _ Hdis Hsel) in Hr.
    injection Hr as <-. by destruct (due last_login threshold).
Qed.

Lemma classify_loop_app org threshold users1 users2 :
  for_each (classify_user fromisoformat org threshold) [] (users1 ++ users2)
  = (r1 ← for_each (classify_user fromisoformat org threshold) [] users1;
     r2 ← for_each (classify_user fromisoformat org threshold) [] users2;
     Ok (r1 ++ r2)).
Proof.
  rewrite for_each_app.
  destruct (for_each _ [] users1) as [r1|e]; simpl; [|done].
  apply (for_each_appends _ (classify_user_appends org threshold)).
Qed.

Lemma classify_loop_cons org threshold user users :
  for_each (classify_user fromisoformat org threshold) [] (user :: users)
  = (r ← classify_user fromisoformat org threshold [] user;
     rest ← for_each (classify_user fromisoformat org threshold) [] users;
     Ok (r ++ rest)).
Proof.
  simpl. destruct (classify_user _ _ _ [] user) as [r|e]; simpl; [|done].
  apply (for_each_appends _ (classify_user_appends org threshold)).
Qed.

(** X3.  Classifying an inventory in two parts and joining the results
    is the same as classifying it whole, errors included: a user's
    record does not depend on the users around it, and the records come
    out in the order of the inventory. *)
Theorem filter_inactive_users_app
    (now days : Z) (org : option string) (users1 users2 : list json) :
  filter_inactive_users fromisoformat now (users1 ++ users2) org days
  = (r1 ← filter_inactive_users fromisoformat now users1 org days;
     r2 ← filter_inactive_users fromisoformat now users2 org days;
     Ok (r1 ++ r2)).
Proof.
  unfold filter_inactive_users.
  destruct (threshold_of now days) as [threshold|e]; simpl; [|done].
  rewrite classify_loop_app.
  destruct (for_each _ [] users1) as [r1|e]; simpl; [|done].
  destruct (for_each _ [] users2) as [r2|e]; simpl; [|done].
  by rewrite List.filter_app.
Qed.

(** The records of the loop, before the final filter on identifiers. *)
Lemma classify_loop_records org threshold users : ∀ records,
  for_each (classify_user fromisoformat org threshold) [] users = Ok records →
  (∀ r, r ∈ records ↔
        ∃ o last_login,
          JObj o ∈ users
          ∧ is_disabled (JObj o) = Ok false
          ∧ select_last_login fromisoformat (JObj o) org = Ok last_login
          ∧ due last_login threshold = true
          ∧ r = record_of o last_login)
  ∧ (length records ≤ length users)%nat.
Proof.
  induction users as [|user users IH]; intros records.
  - intros [= <-]. split; [|done]. intros r. split; [by intros ?%elem_of_nil|].
    by intros (o & ll & ?%elem_of_nil & _).
  - rewrite classify_loop_cons.
    destruct (classify_user _ _ _ [] user) as [r0|e] eqn:Hr0; simpl; [|done].
    destruct (for_each _ [] users) as [rest|e] eqn:Hrest; simpl; [|done].
    intros [= <-]. destruct (IH rest eq_refl) as [IHin IHlen].
    apply classify_user_contribution in Hr0
      as (o & -> & [[Hdis ->]|(Hdis & ll & Hsel & ->)]).
    + split; [|simpl; lia]. intros r. simpl. rewrite IHin. split.
      * intros (o' & ll & Hin & ?). exists o', ll. split; [by right|done].
      * intros (o' & ll & [[= <-]|Hin]%elem_of_cons & Hd & ?); [congruence|eauto].
    + split.
      * intros r. rewrite elem_of_app, IHin. split.
        -- intros [Hr|(o' & ll' & Hin & ?)].
           ++ destruct (due ll threshold) eqn:Hdue; [|by apply elem_of_nil in Hr].
              apply list_elem_of_singleton in Hr as ->.
              exists o, ll. split; [by left|done].
           ++ exists o', ll'. split; [by right|done].
        -- intros (o' & ll' & [[= <-]|Hin]%elem_of_cons & Hd & Hs & Hdue & ->).
           ++ left. rewrite Hsel in Hs. injection Hs as <-. rewrite Hdue.
              by apply list_elem_of_singleton.
           ++ right. eauto 10.
      * rewrite length_app. destruct (due ll threshold); simpl; lia.
Qed.

(** The loop followed by the filter on identifiers decides user by
    user, in the order of the inventory. *)
Lemma classify_loop_kept org threshold users : ∀ records,
  for_each (classify_user fromisoformat org threshold) [] users = Ok records →
  List.filter (λ u, truthy (rec_id u)) records
  = omap (kept_record fromisoformat org threshold) users.
Proof.
  induction users as [|user users IH]; intros records.
  - by intros [= <-].
  - rewrite classify_loop_cons.
    destruct (classify_user _ _ _ [] user) as [r0|e] eqn:Hr0; simpl; [|done].
    destruct (for_each _ [] users) as [rest|e] eqn:Hrest; simpl; [|done].
    intros [= <-]. rewrite List.filter_app, (IH rest eq_refl).
    apply classify_user_contribution in Hr0
      as (o & -> & [[Hdis ->]|(Hdis & ll & Hsel & ->)]).
    + unfold kept_record. by rewrite Hdis.
    + unfold kept_record. rewrite Hdis, Hsel.
      destruct (due ll threshold); cbn [andb List.filter app]; [|done].
      by destruct (truthy (rec_id (record_of o ll))).
Qed.

(** X4.  The output of [filter_inactive_users] is what going through
    the inventory in order and keeping, from each user, at most its own
    record gives: the record is kept when the user is not disabled, its
    last login is absent or not after the threshold, and its identifier
    (the id or, failing that, the e-mail) is not empty.  So the output
    holds exactly the records of those users, one per user and in the
    order of the inventory. *)
Theorem filter_inactive_users_records
    (now days : Z) (org : option string) (users : list json)
    (out : list inactive_user) :
  filter_inactive_users fromisoformat now users org days = Ok out →
  ∃ threshold,
    threshold_of now days = Ok threshold
    ∧ out = omap (kept_record fromisoformat org threshold) users
    ∧ (∀ r, r ∈ out ↔
            ∃ o last_login,
              JObj o ∈ users
              ∧ is_disabled (JObj o) = Ok false
              ∧ select_last_login fromisoformat (JObj o) org = Ok last_login
              ∧ due last_login threshold = true
              ∧ truthy (rec_id (record_of o last_login)) = true
              ∧ r = record_of o last_login)
    ∧ (length out ≤ length users)%nat.
Proof.
  unfold filter_inactive_users.
  destruct (threshold_of now days) as [threshold|e]; simpl; [|done].
  destruct (for_each _ [] users) as [records|e] eqn:Hloop; simpl; [|done].
  intros [= <-]. exists threshold. split; [done|].
  destruct (classify_loop_records org threshold users records Hloop) as [Hin Hlen].
  split; [by apply classify_loop_kept|]. split.
  - intros r. rewrite list_elem_of_In, List.filter_In, <- list_elem_of_In, Hin. split.
    + intros [(o & ll & ? & ? & ? & ? & ->) ?]. exists o, ll. done.
    + intros (o & ll & ? & ? & ? & ? & ? & ->). split; [|done]. exists o, ll. done.
  - pose proof (List.filter_length_le (λ u, truthy (rec_id u)) records). lia.
Qed.

(** X5.  A user that has neither an id nor an e-mail yields no record:
    when its classification does not fail, the output is the same as if
    the user were not in the inventory. *)
Theorem user_without_identifier_dropped
    (o : gmap string json) (now days : Z) (org : option string)
    (last_login : option aware) (before after : list json) :
  truthy (default JNull (o !! "id")) = false →
  truthy (default JNull (o !! "email")) = false →
  is_disabled (JObj o) = Ok false →
  select_last_login fromisoformat (JObj o) org = Ok last_login →
  filter_inactive_users fromisoformat now (before ++ JObj o :: after) org days
  = filter_inactive_users fromisoformat now (before ++ after) org days.
Proof.
  intros Hid Hemail Hdis Hsel. unfold filter_inactive_users.
  destruct (threshold_of now days) as [threshold|e]; simpl; [|done].
  rewrite !classify_loop_app, classify_loop_cons.
  destruct (for_each _ [] before) as [r1|e]; simpl; [|done].
  rewrite (classify_user_enabled _ _ _ _ _ _ Hdis Hsel). simpl.
  destruct (for_each _ [] after) as [r2|e]; simpl; [|done].
  rewrite !List.filter_app. do 2 f_equal.
  destruct (due last_login threshold); simpl; [|done].
  unfold py_or. by rewrite Hid, Hemail.
Qed.

End Filtering.

(** ** Errors of the classification *)

Section FilteringErrors.

Variable fromisoformat : string → option datetime.

(** A timestamp that is a number, a list or a dict stops the first loop
    at the entry that carries it. *)
Lemma first_pass_type_error org pre (eo : gmap string json) post v candidates :
  for_each (filtered_candidate fromisoformat org) [] pre = Ok candidates →
  considered org (JObj eo) = true →
  eo !! "lastLoginAt" = Some v →
  truthy v = true → (∀ s, v ≠ JStr s) →
  for_each (filtered_candidate fromisoformat org) [] (pre ++ JObj eo :: post)
  = Raise TypeError.
Proof.
  intros Hpre Hcons Hv Htruthy Hstr.
  rewrite for_each_app, Hpre. simpl.
  assert (filtered_candidate fromisoformat org candidates (JObj eo) = Raise TypeError)
    as ->; [|done].
  unfold filtered_candidate. unfold considered in Hcons. simpl in *.
  destruct (org_truthy org); simpl.
  - destruct (differs_from _ org); [done|]. simpl. rewrite Hv. simpl.
    by rewrite parse_ts_not_a_string.
  - rewrite Hv. simpl. by rewrite parse_ts_not_a_string.
Qed.

(** X6.  A membership the filter lets through whose [lastLoginAt] is
    neither empty nor a string (an epoch number, say) makes
    [select_last_login] raise [TypeError], and with it the
    classification of the whole inventory, once the memberships and the
    users before it have been processed without error. *)
Theorem non_string_timestamp_aborts
    (o eo : gmap string json) (pre post : list json) (v : json)
    (org : option string) (candidates : list aware) :
  o !! "orgMembers" = Some (JList (pre ++ JObj eo :: post)) →
  for_each (filtered_candidate fromisoformat org) [] pre = Ok candidates →
  considered org (JObj eo) = true →
  eo !! "lastLoginAt" = Some v →
  truthy v = true → (∀ s, v ≠ JStr s) →
  select_last_login fromisoformat (JObj o) org = Raise TypeError
  ∧ (is_disabled (JObj o) = Ok false →
     ∀ now days threshold before after records,
       threshold_of now days = Ok threshold →
       for_each (classify_user fromisoformat org threshold) [] before = Ok records →
       filter_inactive_users fromisoformat now (before ++ JObj o :: after) org days
       = Raise TypeError).
Proof.
  intros Hmembers Hpre Hcons Hv Htruthy Hstr.
  assert (select_last_login fromisoformat (JObj o) org = Raise TypeError) as Hsel.
  { rewrite select_last_login_first_pass. unfold memberships. simpl.
    rewrite Hmembers. simpl.
    assert (py_or (JList (pre ++ JObj eo :: post)) (JList [])
            = JList (pre ++ JObj eo :: post)) as ->
      by (by destruct pre).
    simpl. by rewrite (first_pass_type_error _ _ _ _ _ _ Hpre Hcons Hv Htruthy Hstr). }
  split; [done|].
  intros Hdis now days threshold before after records Hth Hbefore.
  assert (classify_user fromisoformat org threshold [] (JObj o) = Raise TypeError)
    as Hstep by (unfold classify_user; by rewrite Hdis, Hsel).
  unfold filter_inactive_users. rewrite Hth, result_bind_ok.
  by rewrite classify_loop_app, Hbefore, result_bind_ok, classify_loop_cons, Hstep.
Qed.

(** The threshold either is the instant [days] days before [now] or
    does not exist. *)
Lemma threshold_of_cases now days :
  (Z.abs days ≤ MAX_DELTA_DAYS ∧ 0 ≤ now - days * US_PER_DAY < DATETIME_SPAN
   ∧ threshold_of now days
     = Ok {| aware_wall := now - days * US_PER_DAY; utcoffset := 0 |})
  ∨ (¬ (Z.abs days ≤ MAX_DELTA_DAYS ∧ 0 ≤ now - days * US_PER_DAY < DATETIME_SPAN)
     ∧ threshold_of now days = Raise OverflowError).
Proof.
  unfold threshold_of, timedelta_days, datetime_sub.
  destruct (Z.ltb_spec MAX_DELTA_DAYS (Z.abs days)); simpl; [right; split; [lia|done]|].
  destruct (Z.leb_spec 0 (now - days * US_PER_DAY));
    destruct (Z.ltb_spec (now - days * US_PER_DAY) DATETIME_SPAN); simpl;
    first [left; split; [lia|done] | right; split; [lia|done]].
Qed.

(** X7.  The threshold is computed before any user is looked at.  When
    [days] exceeds what a [timedelta] holds, or the threshold instant
    falls outside the years 1 to 9999, the classification raises
    [OverflowError] on every inventory, the empty one included;
    otherwise the empty inventory gives the empty result. *)
Theorem filter_inactive_users_overflow (now days : Z) (org : option string) :
  let representable :=
    Z.abs days ≤ MAX_DELTA_DAYS ∧ 0 ≤ now - days * US_PER_DAY < DATETIME_SPAN in
  (representable → filter_inactive_users fromisoformat now [] org days = Ok [])
  ∧ (¬ representable →
     ∀ users, filter_inactive_users fromisoformat now users org days
              = Raise OverflowError).
Proof.
  intros representable. unfold filter_inactive_users.
  destruct (threshold_of_cases now days) as [(? & ? & ->)|[? ->]]; split;
    try done; intros []; done.
Qed.

(** The classification is monotone in the threshold instant. *)
Lemma classified_inactive_later_threshold
    (now now' days days' : Z) (org : option string) (user : json)
    (threshold threshold' : aware) :
  threshold_of now days = Ok threshold →
  threshold_of now' days' = Ok threshold' →
  instant threshold ≤ instant threshold' →
  classified_inactive fromisoformat now days org user = true →
  classified_inactive fromisoformat now' days' org user = true.
Proof.
  intros Hth Hth' Hle. unfold classified_inactive. rewrite Hth, Hth'.
  unfold classify_user.
  destruct (is_disabled user) as [[|]|e]; simpl; try done.
  destruct (select_last_login fromisoformat user org) as [last_login|e]; simpl;
    [|done].
  assert (due last_login threshold = true → due last_login threshold' = true) as Hmono.
  { rewrite !due_spec. intros [?|(t & ? & ?)]; [by left|right].
    exists t. split; [done|lia]. }
  fold (due last_login threshold). fold (due last_login threshold').
  destruct (due last_login threshold); [|done].
  by rewrite Hmono.
Qed.

(** X8.  For a fixed number of days, a user classified inactive stays
    inactive as the clock advances (while its memberships do not
    change and the threshold stays representable). *)
Theorem classify_monotone_in_now
    (user : json) (now now' days : Z) (org : option string) (threshold' : aware) :
  now ≤ now' →
  threshold_of now' days = Ok threshold' →
  classified_inactive fromisoformat now days org user = true →
  classified_inactive fromisoformat now' days org user = true.
Proof.
  intros Hle Hth' Hin.
  destruct (threshold_of now days) as [threshold|e] eqn:Hth;
    [|by unfold classified_inactive in Hin; rewrite Hth in Hin].
  apply (classified_inactive_later_threshold now now' days days org user
           threshold threshold' Hth Hth'); [|done].
  rewrite (threshold_of_instant _ _ _ Hth), (threshold_of_instant _ _ _ Hth'). lia.
Qed.

End FilteringErrors.

(** ** Credentials, token and inventory *)

Lemma require_missing value name :
  cred_missing value →
  require value name = IO [Stderr (MissingCredential name)] (Raise (SystemExit 1)).
Proof. by intros [-> | ->]. Qed.

Lemma require_present value name :
  ¬ cred_missing value → ∃ v, value = Some v ∧ require value name = IO [] (Ok v).
Proof.
  intros Hpresent. destruct value as [v|]; [|by destruct Hpresent; left].
  exists v. split; [done|]. unfold require.
  destruct (String.eqb_spec v ""); [|done]. subst. by destruct Hpresent; right.
Qed.

Lemma cred_missing_dec value : cred_missing value ∨ ¬ cred_missing value.
Proof.
  destruct value as [v|]; [|left; by left].
  destruct (String.eqb_spec v "") as [->|]; [left; by right|].
  right. by intros [?|[= ->]].
Qed.

(** X9.  When the client id or the client secret is absent or empty the
    run prints one line on standard error and exits with status 1
    without any network call. *)
Theorem missing_credential_stops
    (fromisoformat : string → option datetime) (args : Namespace) (w : world) :
  cred_missing (client_id args) ∨ cred_missing (client_secret args) →
  ∃ name,
    main fromisoformat args w
    = IO [Stderr (MissingCredential name)] (Raise (SystemExit 1))
    ∧ exit_code (outcome (main fromisoformat args w)) = 1.
Proof.
  intros Hmissing. unfold main, inventory.
  destruct (cred_missing_dec (client_id args)) as [Hid|Hid].
  - eexists. rewrite (require_missing _ _ Hid). split; reflexivity.
  - destruct Hmissing as [?|Hsecret]; [done|].
    destruct (require_present _ "PORT_CLIENT_ID or --client-id" Hid) as (cid & _ & ->).
    eexists. rewrite io_bind_ok, (require_missing _ _ Hsecret). split; reflexivity.
Qed.

(** X10.  [get_token] posts the credentials to the current endpoint,
    and to the older endpoint exactly when the current one answers 404;
    it makes no other authentication call. *)
Theorem get_token_fallback (w : world) (cid secret : string) :
  auth_calls (trace (get_token w cid secret))
  = if answers_404 (auth_v1 w)
    then [(false, cid, secret); (true, cid, secret)]
    else [(false, cid, secret)].
Proof.
  unfold get_token, answers_404.
  destruct (auth_v1 w) as [s t b|]; [|done]. simpl.
  destruct (s =? 404); simpl.
  - destruct (auth_legacy w) as [s' t' b'|]; [|done]. simpl.
    destruct (s' =? 200); [|done]. simpl.
    destruct b' as [[]|]; try done. simpl.
    by destruct (truthy _).
  - destruct (s =? 200); [|done]. simpl.
    destruct b as [[]|]; try done. simpl.
    by destruct (truthy _).
Qed.

Lemma get_token_final (w : world) (cid secret : string) :
  outcome (get_token w cid secret)
  = match final_auth_answer w with
    | Response s t b =>
        if s =? 200
        then match b with
             | Some data =>
                 token ← py_get data "accessToken";
                 if truthy token then Ok token else Raise (SystemExit 1)
             | None => Raise JSONDecodeError
             end
        else Raise (SystemExit 1)
    | NoResponse => Raise RequestException
    end.
Proof.
  unfold get_token, final_auth_answer, answers_404.
  destruct (auth_v1 w) as [s t b|]; [|done]. simpl.
  destruct (s =? 404); simpl.
  - destruct (auth_legacy w) as [s' t' b'|]; [|done]. simpl.
    destruct (s' =? 200); [|done]. simpl.
    destruct b' as [data|]; [|done]. simpl.
    destruct (py_get data "accessToken") as [token|e]; [|done]. simpl.
    by destruct (truthy token).
  - destruct (s =? 200); [|done]. simpl.
    destruct b as [data|]; [|done]. simpl.
    destruct (py_get data "accessToken") as [token|e]; [|done]. simpl.
    by destruct (truthy token).
Qed.

(** X11.  [get_token] returns a token exactly when the answer it goes
    by has status 200 and a JSON object with a non-empty [accessToken],
    and the token is that value. *)
Theorem get_token_success (w : world) (cid secret : string) (token : json) :
  outcome (get_token w cid secret) = Ok token
  ↔ ∃ t (o : gmap string json),
      final_auth_answer w = Response 200 t (Some (JObj o))
      ∧ o !! "accessToken" = Some token
      ∧ truthy token = true.
Proof.
  rewrite get_token_final. split.
  - destruct (final_auth_answer w) as [s t b|]; [|done].
    destruct (Z.eqb_spec s 200) as [->|]; [|done].
    destruct b as [[| | | | |o]|]; try done. simpl.
    destruct (o !! "accessToken") as [v|] eqn:Hv; simpl.
    + destruct (truthy v) eqn:Htruthy; [|done]. intros [= <-]. eauto.
    + done.
  - intros (t & o & -> & Hv & Htruthy). simpl. rewrite Hv. simpl. by rewrite Htruthy.
Qed.

Lemma fetch_users_outcome (w : world) (token : json) :
  outcome (fetch_users w token)
  = match users_endpoint w with
    | Response s t b =>
        if s =? 200
        then match b with
             | Some data =>
                 users ← users_of_payload data;
                 match users with
                 | JList l => Ok l
                 | _ => Raise (SystemExit 1)
                 end
             | None => Raise JSONDecodeError
             end
        else Raise (SystemExit 1)
    | NoResponse => Raise RequestException
    end.
Proof.
  unfold fetch_users.
  destruct (users_endpoint w) as [s t b|]; [|done]. simpl.
  destruct (s =? 200); [|done]. simpl.
  destruct b as [data|]; [|done]. simpl.
  destruct (users_of_payload data) as [users|e]; [|done]. simpl.
  by destruct users.
Qed.

(** X12.  [fetch_users] returns a list exactly when the answer has
    status 200 and a JSON object in which ["users"] holds that list, or
    ["users"] is absent or false and ["data"] holds it; and the list is
    never empty. *)
Theorem fetch_users_success (w : world) (token : json) (l : list json) :
  outcome (fetch_users w token) = Ok l
  ↔ ∃ t (o : gmap string json),
      users_endpoint w = Response 200 t (Some (JObj o))
      ∧ l ≠ []
      ∧ (o !! "users" = Some (JList l)
         ∨ (truthy (default JNull (o !! "users")) = false
            ∧ o !! "data" = Some (JList l))).
Proof.
  rewrite fetch_users_outcome. split.
  - destruct (users_endpoint w) as [s t b|]; [|done].
    destruct (Z.eqb_spec s 200) as [->|]; [|done].
    destruct b as [[| | | | |o]|]; try done.
    unfold users_of_payload. simpl.
    destruct (truthy (default JNull (o !! "users"))) eqn:Husers; simpl.
    + destruct (o !! "users") as [[| | | |l'|]|] eqn:Hu; simpl in *; try done.
      intros [= <-]. exists t, o. split; [done|]. split; [by destruct l'|by left].
    + unfold py_or.
      destruct (truthy (default JNull (o !! "data"))) eqn:Hdata; [|done].
      destruct (o !! "data") as [[| | | |l'|]|] eqn:Hd; simpl in *; try done.
      intros [= <-]. exists t, o. split; [done|]. split; [by destruct l'|by right].
  - intros (t & o & -> & Hne & [Hu|[Hu Hd]]); unfold users_of_payload; simpl.
    + rewrite Hu. simpl. by destruct l.
    + rewrite Hu. simpl. rewrite Hd. unfold py_or. simpl. by destruct l.
Qed.

(** ** The bulk calls of a run *)

(** The elements of a slice are elements of the list. *)
Lemma py_slice_subseteq {A} (l : list A) lo hi : py_slice l lo hi ⊆ l.
Proof.
  unfold py_slice. etrans; [apply subseteq_take|apply subseteq_drop].
Qed.

Lemma chunked_elements {A} (l : list A) size batches batch x :
  chunked l size = Ok batches → batch ∈ batches → x ∈ batch → x ∈ l.
Proof.
  unfold chunked. destruct (py_range _ _ _) as [starts|e]; simpl; [|done].
  intros [= <-] Hbatch Hx.
  apply list_elem_of_fmap in Hbatch as (i & -> & _).
  by apply (py_slice_subseteq l i (i + size)).
Qed.

Lemma chunked_batch_sizes {A} (l : list A) n batches batch :
  1 ≤ n → chunked l n = Ok batches → batch ∈ batches →
  1 ≤ Z.of_nat (length batch) ≤ n.
Proof.
  intros Hn. rewrite (chunked_windows l n Hn). intros [= <-] Hbatch.
  apply list_elem_of_lookup in Hbatch as [i Hi].
  apply windows_lookup in Hi as [Hi ->].
  pose proof (ceil_div_bounds (Z.of_nat (length l)) n ltac:(lia)).
  rewrite length_take, length_drop. nia.
Qed.

Section RunCalls.

Variable fromisoformat : string → option datetime.

(** The bulk calls of any run: none, or a prefix of the batches of the
    classification result. *)
Lemma main_bulk_calls args w :
  bulk_calls (trace (main fromisoformat args w)) = []
  ∨ ∃ tr token users inactive batches,
      inventory fromisoformat args w = IO tr (Ok (token, users, inactive))
      ∧ dry_run args = false
      ∧ chunked inactive (batch_size args) = Ok batches
      ∧ bulk_calls (trace (main fromisoformat args w))
        `prefix_of` map (map entity_of) batches.
Proof.
  destruct (quiet_inventory fromisoformat args w) as [Hq _].
  destruct (inventory fromisoformat args w) as [tr [[[token users] inactive]|e]]
    eqn:Hinv; cbn [trace] in Hq.
  - rewrite (main_after_inventory _ _ _ _ _ _ _ Hinv).
    destruct inactive as [|u inactive]; cbn [trace].
    { left. by rewrite bulk_calls_app, Hq, bulk_calls_stdout. }
    rewrite !bulk_calls_app, Hq, bulk_calls_stdout. cbn [app].
    unfold apply_changes. destruct (dry_run args) eqn:Hdry; [by left|].
    destruct (chunked (u :: inactive) (batch_size args)) as [batches|err] eqn:Hchunk.
    + right. exists tr, token, users, (u :: inactive), batches.
      repeat (split; [done|]).
      rewrite io_lift_ok, trace_bind, bulk_calls_app.
      assert (bulk_calls
                match outcome (dispatch w token 0 batches) with
                | Ok _ => trace (print Completed)
                | Raise _ => []
                end = []) as -> by (by destruct (outcome _)).
      rewrite app_nil_r. apply dispatch_calls_prefix.
    + left. by rewrite io_lift_raise.
  - left. by rewrite (main_inventory_raises _ _ _ _ _ Hinv).
Qed.

(** X13.  Whatever the platform answers, the bulk calls of a run are
    the first batches of the classification result, in order: no batch
    is posted twice, skipped or posted out of order. *)
Theorem bulk_calls_in_order
    (args : Namespace) (w : world) (tr : list event) (token : json)
    (users : list json) (inactive : list inactive_user)
    (batches : list (list inactive_user)) :
  inventory fromisoformat args w = IO tr (Ok (token, users, inactive)) →
  chunked inactive (batch_size args) = Ok batches →
  bulk_calls (trace (main fromisoformat args w))
  `prefix_of` map (map entity_of) batches.
Proof.
  intros Hinv Hchunk.
  destruct (main_bulk_calls args w)
    as [->|(tr' & token' & users' & inactive' & batches' & Hinv' & _ & Hchunk' & Hpre)].
  - apply prefix_nil.
  - rewrite Hinv in Hinv'. injection Hinv' as <- <- <- <-.
    rewrite Hchunk in Hchunk'. by injection Hchunk' as <-.
Qed.

Lemma inventory_identifiers args w tr token users inactive r :
  inventory fromisoformat args w = IO tr (Ok (token, users, inactive)) →
  r ∈ inactive → truthy (rec_id r) = true.
Proof.
  intros Hinv Hr. apply inventory_classifies in Hinv.
  unfold filter_inactive_users in Hinv.
  destruct (threshold_of _ _); simpl in Hinv; [|done].
  destruct (for_each _ _ _); simpl in Hinv; [|done].
  injection Hinv as <-.
  by apply list_elem_of_In, List.filter_In in Hr as [_ ?].
Qed.

(** X14.  Every entity of every bulk call of a run has a non-empty
    identifier and a non-empty title. *)
Theorem posted_entities_identified
    (args : Namespace) (w : world) (payload : list entity) (e : entity) :
  payload ∈ bulk_calls (trace (main fromisoformat args w)) →
  e ∈ payload →
  truthy (identifier e) = true ∧ truthy (title e) = true.
Proof.
  intros Hpayload He.
  destruct (main_bulk_calls args w)
    as [Hnone|(tr & token & users & inactive & batches & Hinv & _ & Hchunk & Hpre)].
  - rewrite Hnone in Hpayload. by apply elem_of_nil in Hpayload.
  - apply (elem_of_prefix _ _ _ Hpayload) in Hpre.
    apply list_elem_of_fmap in Hpre as (batch & -> & Hbatch).
    apply list_elem_of_fmap in He as (r & -> & Hr).
    pose proof (chunked_elements _ _ _ _ _ Hchunk Hbatch Hr) as Hin.
    pose proof (inventory_identifiers _ _ _ _ _ _ _ Hinv Hin) as Hid.
    split; [done|]. unfold entity_of, py_or. simpl.
    by destruct (truthy (rec_email r)) eqn:Hemail.
Qed.

(** X15.  With a batch size of at least 1, every bulk call of a run
    carries at least one entity and at most [batch_size] entities. *)
Theorem posted_batches_bounded
    (args : Namespace) (w : world) (payload : list entity) :
  1 ≤ batch_size args →
  payload ∈ bulk_calls (trace (main fromisoformat args w)) →
  1 ≤ Z.of_nat (length payload) ≤ batch_size args.
Proof.
  intros Hsize Hpayload.
  destruct (main_bulk_calls args w)
    as [Hnone|(tr & token & users & inactive & batches & Hinv & _ & Hchunk & Hpre)].
  - rewrite Hnone in Hpayload. by apply elem_of_nil in Hpayload.
  - apply (elem_of_prefix _ _ _ Hpayload) in Hpre.
    apply list_elem_of_fmap in Hpre as (batch & -> & Hbatch).
    rewrite length_map. by apply (chunked_batch_sizes inactive _ batches).
Qed.

End RunCalls.

(** X16.  A list that is not empty and not longer than the batch size
    is one batch; the empty list gives no batch for any size other than
    zero. *)
Theorem chunked_short_input {A : Type} (l : list A) (size : Z) :
  (1 ≤ Z.of_nat (length l) ≤ size → chunked l size = Ok [l])
  ∧ (size ≠ 0 → chunked (@nil A) size = Ok []).
Proof.
  split.
  - intros Hlen. rewrite chunked_windows by lia.
    assert (ceil_div (Z.of_nat (length l)) size = 1) as ->
      by (apply ceil_div_unique; lia).
    unfold windows. change (Z.to_nat 1) with 1%nat. cbn [seq map Nat.mul drop].
    rewrite drop_0. by rewrite take_ge by lia.
  - intros Hsize. unfold chunked, py_range, range_length. simpl.
    destruct (Z.eqb_spec size 0); [done|]. simpl. by destruct (0 <? size).
Qed.

(** ** Exit status *)

Lemma no_exit_ok {A} (a : A) : no_exit (Ok a).
Proof. by intros code. Qed.

Lemma no_exit_bind {A B} (m : result A) (f : A → result B) :
  no_exit m → (∀ a, no_exit (f a)) → no_exit (m ≫= f).
Proof.
  intros Hm Hf. destruct m as [a|e]; simpl; [apply Hf|].
  intros code [= ->]. by destruct (Hm code).
Qed.

Lemma no_exit_for_each {X Y} (body : Y → X → result Y) xs :
  (∀ acc x, no_exit (body acc x)) → ∀ acc, no_exit (for_each body acc xs).
Proof.
  intros Hbody. induction xs as [|x xs IH]; intros acc; simpl.
  - apply no_exit_ok.
  - apply no_exit_bind; [apply Hbody|apply IH].
Qed.

Lemma no_exit_py_get v key : no_exit (py_get v key).
Proof. by destruct v. Qed.

Lemma no_exit_py_iter v : no_exit (py_iter v).
Proof. by destruct v. Qed.

Lemma no_exit_py_lower v : no_exit (py_lower v).
Proof. by destruct v. Qed.

Lemma no_exit_is_disabled user : no_exit (is_disabled user).
Proof.
  unfold is_disabled. apply no_exit_bind; [apply no_exit_py_get|]. intros status.
  apply no_exit_bind; [apply no_exit_py_lower|]. intros low. apply no_exit_ok.
Qed.

Lemma no_exit_threshold_of now days : no_exit (threshold_of now days).
Proof.
  unfold threshold_of, timedelta_days, datetime_sub.
  destruct (MAX_DELTA_DAYS <? Z.abs days); simpl; [done|].
  by match goal with |- context [if ?c then _ else _] => destruct c end.
Qed.

Lemma no_exit_chunked {A} (l : list A) size : no_exit (chunked l size).
Proof.
  unfold chunked, py_range. by destruct (size =? 0).
Qed.

Create HintDb no_exit.
#[local] Hint Resolve no_exit_ok no_exit_py_get no_exit_py_iter no_exit_py_lower
  no_exit_is_disabled no_exit_threshold_of : no_exit.

(** Split a sequence of pure steps and close the steps the hints know. *)
Ltac no_exit_steps :=
  repeat (apply no_exit_bind; [solve [auto with no_exit]|intros ?]).

Section ExitStatus.

Variable fromisoformat : string → option datetime.

Lemma no_exit_parse_ts ts : no_exit (parse_ts fromisoformat ts).
Proof.
  unfold parse_ts. destruct (truthy ts); simpl; [|done].
  destruct ts; try done. by destruct (fromisoformat s).
Qed.

Lemma no_exit_collect (parsed : option aware) candidates :
  no_exit (Ok match parsed with Some t => candidates ++ [t] | None => candidates end).
Proof. apply no_exit_ok. Qed.

Lemma no_exit_any_candidate candidates entry :
  no_exit (any_candidate fromisoformat candidates entry).
Proof.
  unfold any_candidate. no_exit_steps.
  apply no_exit_bind; [apply no_exit_parse_ts|]. intros parsed. apply no_exit_ok.
Qed.

Lemma no_exit_filtered_candidate org candidates entry :
  no_exit (filtered_candidate fromisoformat org candidates entry).
Proof.
  unfold filtered_candidate. apply no_exit_bind.
  - destruct (org_truthy org); [|apply no_exit_ok]. no_exit_steps. apply no_exit_ok.
  - intros [|]; [apply no_exit_ok|]. no_exit_steps.
    apply no_exit_bind; [apply no_exit_parse_ts|]. intros parsed. apply no_exit_ok.
Qed.

Lemma no_exit_select_last_login user org :
  no_exit (select_last_login fromisoformat user org).
Proof.
  unfold select_last_login. no_exit_steps.
  apply no_exit_bind.
  { apply no_exit_for_each. intros; apply no_exit_filtered_candidate. }
  intros candidates. apply no_exit_bind; [|intros; apply no_exit_ok].
  destruct candidates; [|apply no_exit_ok].
  destruct (negb (org_truthy org)); [|apply no_exit_ok].
  apply no_exit_for_each. intros; apply no_exit_any_candidate.
Qed.

Lemma no_exit_classify_user org threshold inactive user :
  no_exit (classify_user fromisoformat org threshold inactive user).
Proof.
  unfold classify_user. no_exit_steps.
  match goal with |- context [if ?c then _ else _] => destruct c end;
    [apply no_exit_ok|].
  apply no_exit_bind; [apply no_exit_select_last_login|]. intros last_login.
  match goal with |- context [if ?c then _ else _] => destruct c end;
    [|apply no_exit_ok].
  no_exit_steps. apply no_exit_ok.
Qed.

Lemma no_exit_filter_inactive_users now users org days :
  no_exit (filter_inactive_users fromisoformat now users org days).
Proof.
  unfold filter_inactive_users. no_exit_steps.
  apply no_exit_bind; [|intros; apply no_exit_ok].
  apply no_exit_for_each. intros; apply no_exit_classify_user.
Qed.

Lemma exits_with_one_bind {A B} (m : io A) (f : A → io B) :
  exits_with_one (outcome m) → (∀ a, exits_with_one (outcome (f a))) →
  exits_with_one (outcome (m ≫= f)).
Proof.
  intros Hm Hf. rewrite outcome_bind. destruct (outcome m) as [a|e]; [apply Hf|].
  intros code [= ->]. by apply Hm.
Qed.

Lemma exits_with_one_lift {A} (r : result A) :
  no_exit r → exits_with_one (outcome (lift r)).
Proof. intros Hr code Heq. by destruct (Hr code). Qed.

Lemma exits_with_one_ok {A} (t : list event) (a : A) :
  exits_with_one (outcome (IO t (Ok a))).
Proof. by intros code. Qed.

Lemma exits_with_one_report {A} l :
  exits_with_one (outcome (eprint l ≫= λ _, @sys_exit A 1)).
Proof. intros code [= <-]. done. Qed.

Lemma exits_with_one_require value name :
  exits_with_one (outcome (require value name)).
Proof.
  destruct value as [v|]; [|apply exits_with_one_report]. unfold require.
  destruct (String.eqb v ""); [apply exits_with_one_report|apply exits_with_one_ok].
Qed.

Lemma exits_with_one_get_token w cid secret :
  exits_with_one (outcome (get_token w cid secret)).
Proof.
  rewrite get_token_final. destruct (final_auth_answer w) as [s t b|]; [|done].
  destruct (s =? 200); [|by intros code [= <-]].
  destruct b as [data|]; [|done].
  destruct (py_get data "accessToken") as [token|e] eqn:Hget; simpl.
  - destruct (truthy token); [done|by intros code [= <-]].
  - intros code [= ->]. by destruct (no_exit_py_get data "accessToken" code).
Qed.

Lemma no_exit_users_of_payload data : no_exit (users_of_payload data).
Proof.
  unfold users_of_payload. no_exit_steps.
  match goal with |- context [if ?c then _ else _] => destruct c end;
    [apply no_exit_ok|].
  no_exit_steps. apply no_exit_ok.
Qed.

Lemma exits_with_one_fetch_users w token :
  exits_with_one (outcome (fetch_users w token)).
Proof.
  rewrite fetch_users_outcome. destruct (users_endpoint w) as [s t b|]; [|done].
  destruct (s =? 200); [|by intros code [= <-]].
  destruct b as [data|]; [|done].
  destruct (users_of_payload data) as [users|e] eqn:Hu; simpl.
  - destruct users; first [done | by intros code [= <-]].
  - intros code [= ->]. by destruct (no_exit_users_of_payload data code).
Qed.

Lemma exits_with_one_disable_batch w token k batch :
  exits_with_one (outcome (disable_batch w token k batch)).
Proof.
  unfold disable_batch.
  destruct (bulk_endpoint w k (map entity_of batch)) as [s t b|]; [|done]. simpl.
  destruct (s =? 200); destruct (s =? 207); simpl; first [done | by intros code [= <-]].
Qed.

Lemma exits_with_one_dispatch w token batches : ∀ k,
  exits_with_one (outcome (dispatch w token k batches)).
Proof.
  induction batches as [|batch rest IH]; intros k; [done|].
  rewrite dispatch_cons. apply exits_with_one_bind; [done|]. intros _.
  apply exits_with_one_bind; [apply exits_with_one_disable_batch|]. intros _.
  apply IH.
Qed.

Lemma exits_with_one_main args w :
  exits_with_one (outcome (main fromisoformat args w)).
Proof.
  unfold main. apply exits_with_one_bind.
  - unfold inventory.
    apply exits_with_one_bind; [apply exits_with_one_require|]. intros cid.
    apply exits_with_one_bind; [apply exits_with_one_require|]. intros secret.
    apply exits_with_one_bind; [apply exits_with_one_get_token|]. intros token.
    apply exits_with_one_bind; [apply exits_with_one_fetch_users|]. intros users.
    apply exits_with_one_bind; [|done].
    apply exits_with_one_lift, no_exit_filter_inactive_users.
  - intros [[token users] inactive].
    apply exits_with_one_bind; [by rewrite preview_trace|]. intros _.
    destruct inactive as [|u inactive]; [done|].
    unfold apply_changes. destruct (dry_run args); [done|].
    apply exits_with_one_bind; [apply exits_with_one_lift, no_exit_chunked|].
    intros batches.
    apply exits_with_one_bind; [apply exits_with_one_dispatch|done].
Qed.

(** X17.  A run ends with exit status 0 or 1, and with 0 exactly when
    [main] returns normally. *)
Theorem main_exit_status (args : Namespace) (w : world) :
  let status := exit_code (outcome (main fromisoformat args w)) in
  (status = 0 ∨ status = 1)
  ∧ (status = 0 ↔ outcome (main fromisoformat args w) = Ok tt).
Proof.
  pose proof (exits_with_one_main args w) as Hone. cbv zeta.
  destruct (outcome (main fromisoformat args w)) as [[]|e]; simpl.
  - split; [by left|done].
  - destruct e; simpl; try (split; [by right|done]).
    rewrite (Hone code eq_refl). split; [by right|done].
Qed.

End ExitStatus.

(** ** Calls without an answer, and the token *)

Lemma tokens_used_app t1 t2 : tokens_used (t1 ++ t2) = tokens_used t1 ++ tokens_used t2.
Proof. apply omap_app. Qed.

Lemma tokens_used_stdout ls : tokens_used (map Stdout ls) = [].
Proof. induction ls as [|l ls IH]; [done|]. simpl. apply IH. Qed.

Lemma tokens_used_require value name : tokens_used (trace (require value name)) = [].
Proof. destruct value as [v|]; [|done]. unfold require. by destruct (String.eqb v ""). Qed.

Lemma tokens_used_get_token w cid secret :
  tokens_used (trace (get_token w cid secret)) = [].
Proof.
  unfold get_token.
  destruct (auth_v1 w) as [s t b|]; [|done]. simpl.
  destruct (s =? 404); simpl.
  - destruct (auth_legacy w) as [s' t' b'|]; [|done]. simpl.
    destruct (s' =? 200); [|done]. simpl.
    destruct b' as [[]|]; try done. simpl.
    by destruct (truthy _).
  - destruct (s =? 200); [|done]. simpl.
    destruct b as [[]|]; try done. simpl.
    by destruct (truthy _).
Qed.

Lemma tokens_used_fetch_users w token :
  tokens_used (trace (fetch_users w token)) = [token].
Proof.
  unfold fetch_users.
  destruct (users_endpoint w) as [s t b|]; [|done]. simpl.
  destruct (s =? 200); [|done]. simpl.
  destruct b as [data|]; [|done]. simpl.
  destruct (users_of_payload data) as [users|e]; [|done]. simpl.
  by destruct users.
Qed.

Lemma tokens_used_disable_batch w token k batch :
  tokens_used (trace (disable_batch w token k batch)) = [token].
Proof.
  unfold disable_batch.
  destruct (bulk_endpoint w k (map entity_of batch)) as [s t b|]; [|done]. simpl.
  destruct (s =? 200); destruct (s =? 207); done.
Qed.

Lemma tokens_used_dispatch w token batches : ∀ k tok,
  tok ∈ tokens_used (trace (dispatch w token k batches)) → tok = token.
Proof.
  induction batches as [|batch rest IH]; intros k tok; [by intros ?%elem_of_nil|].
  rewrite dispatch_cons. unfold print at 1, emit. rewrite io_bind_ok.
  cbn [trace]. rewrite trace_bind, !tokens_used_app, tokens_used_disable_batch.
  cbn [tokens_used omap list_omap app].
  intros [->|Htok]%elem_of_cons; [done|].
  destruct (outcome (disable_batch w token k batch)); [by apply (IH (S k))|].
  by apply elem_of_nil in Htok.
Qed.

Lemma io_mret_bind {A B} (a : A) (f : A → io B) : (mret a ≫= f) = f a.
Proof. apply (io_lift_ok a f). Qed.

Section RunToken.

Variable fromisoformat : string → option datetime.

(** The first part of [main] once both credentials are present. *)
Lemma inventory_with_credentials args w cid secret :
  client_id args = Some cid → cid ≠ "" →
  client_secret args = Some secret → secret ≠ "" →
  inventory fromisoformat args w
  = (token ← get_token w cid secret;
     users ← fetch_users w token;
     inactive_users ← lift (filter_inactive_users fromisoformat (clock w) users
                              (org_id args) (days_inactive args));
     mret (token, users, inactive_users)).
Proof.
  intros Hcid Hne Hsecret Hne'. unfold inventory, require. rewrite Hcid, Hsecret.
  destruct (String.eqb_spec cid ""); [done|].
  destruct (String.eqb_spec secret ""); [done|].
  cbn [negb]. by rewrite !io_mret_bind.
Qed.

(** The tokens of the first part of [main]: only the token obtained,
    and that token is the one handed on. *)
Lemma inventory_tokens args w :
  (∀ tok, tok ∈ tokens_used (trace (inventory fromisoformat args w)) →
     ∃ cid secret,
       client_id args = Some cid ∧ client_secret args = Some secret
       ∧ outcome (get_token w cid secret) = Ok tok)
  ∧ (∀ tr token users inactive,
       inventory fromisoformat args w = IO tr (Ok (token, users, inactive)) →
       ∃ cid secret,
         client_id args = Some cid ∧ client_secret args = Some secret
         ∧ outcome (get_token w cid secret) = Ok token).
Proof.
  destruct (cred_missing_dec (client_id args)) as [Hid|Hid].
  { unfold inventory. rewrite (require_missing _ _ Hid).
    split; [by intros tok ?%elem_of_nil|done]. }
  destruct (cred_missing_dec (client_secret args)) as [Hsec|Hsec].
  { unfold inventory.
    destruct (require_present _ "PORT_CLIENT_ID or --client-id" Hid) as (? & _ & ->).
    rewrite io_bind_ok, (require_missing _ _ Hsec).
    split; [by intros tok ?%elem_of_nil|done]. }
  destruct (client_id args) as [cid|] eqn:Hcid; [|by destruct Hid; left].
  destruct (client_secret args) as [secret|] eqn:Hsecret; [|by destruct Hsec; left].
  assert (cid ≠ "") as Hne by (intros ->; apply Hid; by right).
  assert (secret ≠ "") as Hne' by (intros ->; apply Hsec; by right).
  rewrite (inventory_with_credentials args w cid secret Hcid Hne Hsecret Hne').
  pose proof (tokens_used_get_token w cid secret) as Hauth.
  destruct (get_token w cid secret) as [t1 [token|e]] eqn:Htoken;
    cbn [trace] in Hauth.
  2:{ rewrite io_bind_raise. cbn [trace].
      split; [rewrite Hauth; by intros tok ?%elem_of_nil|done]. }
  rewrite io_bind_ok.
  pose proof (tokens_used_fetch_users w token) as Hfetch.
  assert (∀ tok, tok ∈ tokens_used
                   (t1 ++ trace (users ← fetch_users w token;
                                 inactive_users ←
                                   lift (filter_inactive_users fromisoformat
                                           (clock w) users (org_id args)
                                           (days_inactive args));
                                 mret (token, users, inactive_users)))
                 → tok = token) as Honly.
  { intros tok. rewrite tokens_used_app, Hauth, trace_bind, tokens_used_app, Hfetch.
    cbn [app]. intros [->|Htok]%elem_of_cons; [done|].
    destruct (outcome (fetch_users w token)) as [users|e];
      [|by apply elem_of_nil in Htok].
    rewrite trace_bind in Htok. cbn [lift trace outcome app] in Htok.
    destruct (filter_inactive_users _ _ _ _ _); by apply elem_of_nil in Htok. }
  split.
  - intros tok Htok. apply Honly in Htok as ->. exists cid, secret. by rewrite Htoken.
  - intros tr token' users inactive Heq. exists cid, secret.
    split; [done|]. split; [done|]. rewrite Htoken. cbn [outcome]. f_equal.
    apply (f_equal outcome) in Heq. cbn [outcome] in Heq.
    rewrite outcome_bind in Heq.
    destruct (outcome (fetch_users w token)) as [users'|e]; [|done].
    rewrite outcome_bind in Heq. cbn [lift outcome] in Heq.
    destruct (filter_inactive_users _ _ _ _ _); [|done].
    cbn in Heq. by injection Heq.
Qed.

(** X18.  The inventory call and every bulk call of a run carry the
    token that [get_token] returned for the credentials of the command
    line; no such call is made when no token was obtained. *)
Theorem calls_carry_token (args : Namespace) (w : world) (tok : json) :
  tok ∈ tokens_used (trace (main fromisoformat args w)) →
  ∃ cid secret,
    client_id args = Some cid
    ∧ client_secret args = Some secret
    ∧ outcome (get_token w cid secret) = Ok tok.
Proof.
  destruct (inventory_tokens args w) as [Hfirst Hhanded].
  destruct (inventory fromisoformat args w) as [tr [[[token users] inactive]|e]]
    eqn:Hinv; cbn [trace] in Hfirst.
  2:{ rewrite (main_inventory_raises _ _ _ _ _ Hinv). apply Hfirst. }
  rewrite (main_after_inventory _ _ _ _ _ _ _ Hinv).
  destruct inactive as [|u inactive]; cbn [trace].
  { rewrite tokens_used_app, tokens_used_stdout, app_nil_r. apply Hfirst. }
  rewrite !tokens_used_app, tokens_used_stdout. cbn [app].
  intros [Htok|Htok]%elem_of_app; [by apply Hfirst|].
  assert (tok = token) as ->; [|by apply (Hhanded tr token users (u :: inactive))].
  unfold apply_changes in Htok.
  destruct (dry_run args); [by apply elem_of_nil in Htok|].
  destruct (chunked (u :: inactive) (batch_size args)) as [batches|e];
    [|by apply elem_of_nil in Htok].
  rewrite io_lift_ok, trace_bind, tokens_used_app in Htok.
  apply elem_of_app in Htok as [Htok|Htok].
  - by apply tokens_used_dispatch in Htok.
  - destruct (outcome (dispatch w token 0 batches)); by apply elem_of_nil in Htok.
Qed.

(** X19.  A bulk call that gets no answer (a time-out, a lost
    connection) ends the run with exit status 1: nothing is printed
    after the call and no later batch is posted. *)
Theorem bulk_call_without_answer
    (args : Namespace) (w : world) (tr : list event) (token : json)
    (users : list json) (inactive : list inactive_user)
    (done : list (list inactive_user)) (batch : list inactive_user)
    (rest : list (list inactive_user)) :
  inventory fromisoformat args w = IO tr (Ok (token, users, inactive)) →
  inactive ≠ [] →
  dry_run args = false →
  chunked inactive (batch_size args) = Ok (done ++ batch :: rest) →
  (∀ i earlier, done !! i = Some earlier →
     accepted (bulk_endpoint w i (map entity_of earlier))) →
  bulk_endpoint w (length done) (map entity_of batch) = NoResponse →
  let run := main fromisoformat args w in
  last (trace run) = Some (PostBulk token (map entity_of batch))
  ∧ bulk_calls (trace run) = map (map entity_of) (done ++ [batch])
  ∧ outcome run = Raise RequestException
  ∧ exit_code (outcome run) = 1.
Proof.
  intros Hinv Hne Hdry Hchunk Hacc Hresp run. subst run.
  destruct (dispatch_accepted w token done 0 (batch :: rest) Hacc)
    as (before & Hcalls & Hrun).
  cbv zeta in Hrun. change (0 + length done)%nat with (length done) in Hrun.
  assert (dispatch w token (length done) (batch :: rest)
          = IO [Stdout (DisablingBatch (length batch));
                PostBulk token (map entity_of batch)] (Raise RequestException))
    as Hnext by (by rewrite dispatch_cons, (disable_batch_no_response _ _ _ _ Hresp)).
  rewrite Hnext in Hrun. cbn [trace outcome] in Hrun.
  rewrite (main_dispatching _ _ _ _ _ _ _ _ Hinv Hne Hdry Hchunk), Hrun.
  cbv zeta. rewrite io_bind_raise. cbn [trace outcome].
  destruct (quiet_inventory fromisoformat args w) as [Hq _].
  rewrite Hinv in Hq. cbn [trace] in Hq.
  split; [|split; [|done]].
  - by rewrite !app_assoc, last_app.
  - rewrite !bulk_calls_app, Hq, bulk_calls_stdout, Hcalls, map_app. done.
Qed.

End RunToken.

(** ** The command line *)

Section ParseArgsProperties.

Variable py_int : string → option Z.

(** X20.  An unreadable [DAYS_INACTIVE] in the environment makes
    [parse_args] raise [ValueError] whatever the command line is, even
    when [--days-inactive] is given. *)
Theorem parse_args_unreadable_days
    (env : gmap string string) (cli : CommandLine) (s : string) :
  env !! "DAYS_INACTIVE" = Some s →
  py_int s = None →
  parse_args py_int env cli = Raise ValueError.
Proof. intros Henv Hint. unfold parse_args. by rewrite Henv; simpl; rewrite Hint. Qed.

(** X21.  When the command line gives the credentials, the base URL,
    the number of days and the organization, the environment has no
    influence on the result, as long as its [DAYS_INACTIVE], if any, is
    readable. *)
Theorem parse_args_command_line_wins
    (env env' : gmap string string) (cli : CommandLine) :
  is_Some (opt_client_id cli) → is_Some (opt_client_secret cli) →
  is_Some (opt_base_url cli) → is_Some (opt_days_inactive cli) →
  is_Some (opt_org_id cli) →
  is_Some (py_int (default "45" (env !! "DAYS_INACTIVE"))) →
  is_Some (py_int (default "45" (env' !! "DAYS_INACTIVE"))) →
  parse_args py_int env cli = parse_args py_int env' cli.
Proof.
  intros [cid Hcid] [secret Hsecret] [url Hurl] [days Hdays] [org Horg]
    [n Hn] [n' Hn'].
  unfold parse_args. rewrite Hn, Hn', Hcid, Hsecret, Hurl, Hdays, Horg. simpl.
  by destruct (py_int days).
Qed.

End ParseArgsProperties.

Lemma parse_args_unreadable_days_witness :
  parse_args int_basic (<["DAYS_INACTIVE" := "forty"]> sample_env) full_options
  = Raise ValueError.
Proof.
  apply (parse_args_unreadable_days int_basic _ full_options "forty"); reflexivity.
Defined.

Example parse_args_defaults :
  parse_args int_basic sample_env no_options
  = Ok {| client_id := Some "client"; client_secret := Some "secret";
          base_url := "https://api.port.io"; days_inactive := 45;
          org_id := None; batch_size := 20; dry_run := false |}.
Proof. reflexivity. Qed.

(** ** Running the classification again *)

Section SettleProperties.

Variable fromisoformat : string → option datetime.

Lemma is_disabled_after_update (o : gmap string json) :
  is_disabled (JObj (<["status" := JStr "Disabled"]> o)) = Ok true.
Proof.
  apply (is_disabled_status _ "Disabled"); [apply lookup_insert_eq|reflexivity].
Qed.

(** After the update a user contributes nothing that passes the final
    filter. *)
Lemma settle_contribution org threshold user r :
  classify_user fromisoformat org threshold [] user = Ok r →
  ∃ r', classify_user fromisoformat org threshold []
          (settle fromisoformat org threshold user) = Ok r'
        ∧ List.filter (λ u, truthy (rec_id u)) r' = [].
Proof.
  intros Hr. unfold settle, reported. rewrite Hr.
  apply classify_user_contribution in Hr as Hc.
  destruct Hc as (o & -> & [[Hdis ->]|(Hdis & ll & Hsel & ->)]).
  - exists []. split; [|done]. by apply classify_user_disabled.
  - destruct (due ll threshold).
    + destruct (truthy (rec_id (record_of o ll))) eqn:Hid.
      * exists []. split; [|done].
        apply classify_user_disabled, is_disabled_after_update.
      * exists [record_of o ll]. split; [done|]. cbn [List.filter]. by rewrite Hid.
    + exists []. by split.
Qed.

Lemma settle_loop org threshold users : ∀ records,
  for_each (classify_user fromisoformat org threshold) [] users = Ok records →
  ∃ records',
    for_each (classify_user fromisoformat org threshold) []
      (map (settle fromisoformat org threshold) users) = Ok records'
    ∧ List.filter (λ u, truthy (rec_id u)) records' = [].
Proof.
  induction users as [|user users IH]; intros records.
  - intros _. by exists [].
  - rewrite classify_loop_cons. intros Hloop.
    destruct (classify_user _ _ _ [] user) as [r|e] eqn:Hr; [|done].
    destruct (for_each _ [] users) as [rest|e] eqn:Hrest; [|done].
    clear Hloop.
    destruct (settle_contribution _ _ _ _ Hr) as (r' & Hr' & Hnone).
    destruct (IH rest eq_refl) as (rest' & Hrest' & Hnone').
    exists (r' ++ rest'). rewrite map_cons, classify_loop_cons, Hr', Hrest'.
    split; [done|]. by rewrite List.filter_app, Hnone, Hnone'.
Qed.

(** X22.  Once the status of every reported user is [Disabled], the
    classification of the same inventory at the same time reports
    nobody. *)
Theorem filter_inactive_users_settles
    (now days : Z) (org : option string) (users : list json)
    (out : list inactive_user) (threshold : aware) :
  threshold_of now days = Ok threshold →
  filter_inactive_users fromisoformat now users org days = Ok out →
  filter_inactive_users fromisoformat now
    (map (settle fromisoformat org threshold) users) org days = Ok [].
Proof.
  intros Hth. unfold filter_inactive_users. rewrite Hth. simpl.
  destruct (for_each _ [] users) as [records|e] eqn:Hloop; simpl; [|done].
  intros _. destruct (settle_loop _ _ _ _ Hloop) as (records' & -> & Hnone).
  simpl. by rewrite Hnone.
Qed.

End SettleProperties.

(** ** Instances of the further properties *)

Lemma select_last_login_latest_witness :
  select_last_login iso_basic (JObj user_i) (Some "org-1") = Ok (Some (utc 738954))
  ∧ ∃ entries,
      memberships (JObj user_i) = Ok entries
      ∧ (∃ e, e ∈ entries ∧ considered (Some "org-1") e = true
              ∧ entry_login iso_basic e = Ok (Some (utc 738954)))
      ∧ (∀ e t', e ∈ entries → considered (Some "org-1") e = true →
                 entry_login iso_basic e = Ok (Some t') →
                 instant t' ≤ instant (utc 738954)).
Proof.
  split; [reflexivity|].
  exact (select_last_login_latest iso_basic (JObj user_i) (Some "org-1")
           (Some (utc 738954)) eq_refl).
Defined.

Lemma filter_inactive_users_records_witness :
  ∃ threshold,
    threshold_of sample_now 45 = Ok threshold
    ∧ [record_a; record_c; record_e]
      = omap (kept_record iso_basic None threshold) sample_users
    ∧ (∀ r, r ∈ [record_a; record_c; record_e] ↔
            ∃ o last_login,
              JObj o ∈ sample_users
              ∧ is_disabled (JObj o) = Ok false
              ∧ select_last_login iso_basic (JObj o) None = Ok last_login
              ∧ due last_login threshold = true
              ∧ truthy (rec_id (record_of o last_login)) = true
              ∧ r = record_of o last_login)
    ∧ (length [record_a; record_c; record_e] ≤ length sample_users)%nat.
Proof.
  apply (filter_inactive_users_records iso_basic sample_now 45 None sample_users).
  vm_compute. reflexivity.
Defined.

Lemma user_without_identifier_dropped_witness :
  select_last_login iso_basic (JObj user_g) None = Ok (Some (utc 738899))
  ∧ filter_inactive_users iso_basic sample_now
      ([JObj user_a] ++ JObj user_g :: [JObj user_c]) None 45
    = filter_inactive_users iso_basic sample_now
        ([JObj user_a] ++ [JObj user_c]) None 45.
Proof.
  split; [reflexivity|].
  apply (user_without_identifier_dropped iso_basic user_g sample_now 45 None
           (Some (utc 738899))); reflexivity.
Defined.

Lemma non_string_timestamp_aborts_witness :
  select_last_login iso_basic (JObj user_h) None = Raise TypeError
  ∧ filter_inactive_users iso_basic sample_now
      ([JObj user_a] ++ JObj user_h :: [JObj user_c]) None 45
    = Raise TypeError.
Proof.
  destruct (non_string_timestamp_aborts iso_basic user_h epoch_member
              [member "org-1" "2024-05-30"] [] (JNum 1717200000) None
              [utc 739035]) as [Hsel Hall].
  - reflexivity.
  - reflexivity.
  - reflexivity.
  - reflexivity.
  - reflexivity.
  - intros s. discriminate.
  - split; [exact Hsel|].
    apply (Hall eq_refl sample_now 45 (utc 738992) [JObj user_a] [JObj user_c]
             [record_a]); reflexivity.
Defined.

Lemma classify_monotone_in_now_witness :
  sample_now ≤ sample_now + 10 * US_PER_DAY
  ∧ classified_inactive iso_basic sample_now 45 None (JObj user_a) = true
  ∧ classified_inactive iso_basic (sample_now + 10 * US_PER_DAY) 45 None
      (JObj user_a) = true.
Proof.
  split; [unfold US_PER_DAY; lia|]. split; [reflexivity|].
  apply (classify_monotone_in_now iso_basic (JObj user_a) sample_now
           (sample_now + 10 * US_PER_DAY) 45 None (utc 739002)).
  - unfold US_PER_DAY. lia.
  - reflexivity.
  - reflexivity.
Defined.

Lemma missing_credential_stops_witness :
  ∃ name,
    main iso_basic args_without_secret (sample_world always_ok)
    = IO [Stderr (MissingCredential name)] (Raise (SystemExit 1))
    ∧ exit_code (outcome (main iso_basic args_without_secret
                            (sample_world always_ok))) = 1.
Proof.
  apply (missing_credential_stops iso_basic). right. by right.
Defined.

Lemma bulk_calls_in_order_witness :
  bulk_calls (trace (main iso_basic (sample_args 2 false)
                       (sample_world partial_then_failure)))
  `prefix_of` map (map entity_of) [[record_a; record_c]; [record_e]].
Proof.
  apply (bulk_calls_in_order iso_basic (sample_args 2 false)
           (sample_world partial_then_failure) sample_trace (JStr "token")
           sample_users [record_a; record_c; record_e]).
  - apply sample_inventory.
  - reflexivity.
Defined.

Example sample_bulk_calls :
  bulk_calls (trace (main iso_basic (sample_args 2 false) (sample_world always_ok)))
  = [map entity_of [record_a; record_c]; map entity_of [record_e]].
Proof. vm_compute. reflexivity. Qed.

Lemma posted_entities_identified_witness :
  truthy (identifier (entity_of record_c)) = true
  ∧ truthy (title (entity_of record_c)) = true.
Proof.
  apply (posted_entities_identified iso_basic (sample_args 2 false)
           (sample_world always_ok) (map entity_of [record_a; record_c])).
  - rewrite sample_bulk_calls. apply list_elem_of_here.
  - apply list_elem_of_further, list_elem_of_here.
Defined.

Lemma posted_batches_bounded_witness :
  1 ≤ Z.of_nat (length (map entity_of [record_e])) ≤ 2.
Proof.
  apply (posted_batches_bounded iso_basic (sample_args 2 false)
           (sample_world always_ok) (map entity_of [record_e])).
  - simpl. lia.
  - rewrite sample_bulk_calls. apply list_elem_of_further, list_elem_of_here.
Defined.

Example sample_tokens :
  tokens_used (trace (main iso_basic (sample_args 2 false) (sample_world always_ok)))
  = [JStr "token"; JStr "token"; JStr "token"].
Proof. vm_compute. reflexivity. Qed.

Lemma calls_carry_token_witness :
  ∃ cid secret,
    client_id (sample_args 2 false) = Some cid
    ∧ client_secret (sample_args 2 false) = Some secret
    ∧ outcome (get_token (sample_world always_ok) cid secret) = Ok (JStr "token").
Proof.
  apply (calls_carry_token iso_basic (sample_args 2 false) (sample_world always_ok)).
  rewrite sample_tokens. apply list_elem_of_here.
Defined.

Lemma bulk_call_without_answer_witness :
  let run := main iso_basic (sample_args 2 false) (sample_world ok_then_silence) in
  last (trace run) = Some (PostBulk (JStr "token") (map entity_of [record_e]))
  ∧ bulk_calls (trace run) = map (map entity_of) ([[record_a; record_c]] ++ [[record_e]])
  ∧ outcome run = Raise RequestException
  ∧ exit_code (outcome run) = 1.
Proof.
  apply (bulk_call_without_answer iso_basic (sample_args 2 false)
           (sample_world ok_then_silence) sample_trace (JStr "token")
           sample_users [record_a; record_c; record_e]
           [[record_a; record_c]] [record_e] []).
  - apply sample_inventory.
  - discriminate.
  - reflexivity.
  - reflexivity.
  - intros [|i] earlier Hi; [|destruct i; discriminate Hi].
    exists "", None. by left.
  - reflexivity.
Defined.

Lemma parse_args_command_line_wins_witness :
  parse_args int_basic sample_env full_options
  = parse_args int_basic (<["DAYS_INACTIVE" := "30"]> ∅) full_options.
Proof.
  apply (parse_args_command_line_wins int_basic); by eexists.
Defined.

Lemma filter_inactive_users_settles_witness :
  filter_inactive_users iso_basic sample_now sample_users None 45
  = Ok [record_a; record_c; record_e]
  ∧ filter_inactive_users iso_basic sample_now
      (map (settle iso_basic None (utc 738992)) sample_users) None 45 = Ok [].
Proof.
  assert (filter_inactive_users iso_basic sample_now sample_users None 45
          = Ok [record_a; record_c; record_e]) as Hout by (vm_compute; reflexivity).
  split; [exact Hout|].
  apply (filter_inactive_users_settles iso_basic sample_now 45 None sample_users
           [record_a; record_c; record_e] (utc 738992) eq_refl Hout).
Defined.

(** ** The status guard, users without a login, and complete runs *)

(** X23.  The three ways the status guard can go.  A user is skipped
    exactly when it is a dict whose status is a string that lowercases
    to [disabled]; it is kept when the status is absent, empty or
    another string; and the guard raises [AttributeError] when the user
    is not a dict or its status is a non-empty value that is not a
    string (a number, [true], a list, a dict). *)
Theorem is_disabled_cases (user : json) :
  match is_disabled user with
  | Ok true =>
      ∃ (o : gmap string json) s,
        user = JObj o ∧ o !! "status" = Some (JStr s) ∧ lower s = "disabled"
  | Ok false =>
      ∃ o : gmap string json,
        user = JObj o
        ∧ (truthy (default JNull (o !! "status")) = false
           ∨ ∃ s, o !! "status" = Some (JStr s) ∧ lower s ≠ "disabled")
  | Raise e =>
      e = AttributeError
      ∧ ((∀ o, user ≠ JObj o)
         ∨ ∃ (o : gmap string json) v,
             user = JObj o ∧ o !! "status" = Some v
             ∧ truthy v = true ∧ ∀ s, v ≠ JStr s)
  end.
Proof.
  destruct user as [| | | | |o]; try (split; [done|by left]).
  unfold is_disabled. simpl. unfold py_or.
  destruct (o !! "status") as [v|] eqn:Hstatus; simpl.
  - destruct (truthy v) eqn:Htruthy.
    + destruct v as [| | |s| |]; simpl;
        try (split; [done|]; right; eexists o, _; by repeat split).
      destruct (String.eqb_spec (lower s) "disabled") as [Hlow|Hlow].
      * by exists o, s.
      * exists o. split; [done|]. right. by exists s.
    + simpl. exists o. split; [done|]. left. by rewrite Hstatus.
  - exists o. split; [done|]. left. by rewrite Hstatus.
Qed.

Section MoreProperties.

Variable fromisoformat : string → option datetime.

(** An entry that is a dict and contributes no timestamp. *)
Lemma filtered_candidate_nothing org (eo : gmap string json) :
  (considered org (JObj eo) = true →
   entry_login fromisoformat (JObj eo) = Ok None) →
  filtered_candidate fromisoformat org [] (JObj eo) = Ok [].
Proof.
  unfold considered, entry_login, filtered_candidate. simpl.
  destruct (org_truthy org); simpl.
  - destruct (differs_from _ org); simpl; [done|].
    intros Hnone. by rewrite (Hnone eq_refl).
  - intros Hnone. by rewrite (Hnone eq_refl).
Qed.

Lemma first_pass_nothing org entries :
  (∀ e, e ∈ entries → ∃ eo : gmap string json, e = JObj eo) →
  (∀ e, e ∈ entries → considered org e = true →
        entry_login fromisoformat e = Ok None) →
  for_each (filtered_candidate fromisoformat org) [] entries = Ok [].
Proof.
  induction entries as [|e entries IH]; intros Hdict Hnone; [done|].
  destruct (Hdict e ltac:(by left)) as [eo ->]. simpl.
  rewrite filtered_candidate_nothing by (apply Hnone; by left). simpl.
  apply IH; intros e' He'; [apply Hdict|apply Hnone]; by right.
Qed.

(** X24.  A user none of whose memberships that the filter lets
    through has a parseable timestamp has no last login, and, when not
    disabled, is recorded as inactive whatever the threshold is. *)
Theorem no_timestamp_means_inactive
    (o : gmap string json) (org : option string) (entries : list json) :
  memberships (JObj o) = Ok entries →
  (∀ e, e ∈ entries → ∃ eo : gmap string json, e = JObj eo) →
  (∀ e, e ∈ entries → considered org e = true →
        entry_login fromisoformat e = Ok None) →
  select_last_login fromisoformat (JObj o) org = Ok None
  ∧ (is_disabled (JObj o) = Ok false →
     ∀ threshold inactive,
       classify_user fromisoformat org threshold inactive (JObj o)
       = Ok (inactive ++ [record_of o None])).
Proof.
  intros Hentries Hdict Hnone.
  assert (select_last_login fromisoformat (JObj o) org = Ok None) as Hsel.
  { rewrite select_last_login_first_pass, Hentries, result_bind_ok.
    by rewrite (first_pass_nothing org entries Hdict Hnone). }
  split; [done|]. intros Hdis threshold inactive.
  by rewrite (classify_user_enabled _ _ _ _ _ _ Hdis Hsel).
Qed.

(** X25.  When every bulk call is answered 200 or 207, a run that
    reaches the loop posts every batch, prints the completion line last
    and exits with status 0: a partial success (207) does not change
    the exit status. *)
Theorem accepted_run_completes
    (args : Namespace) (w : world) (tr : list event) (token : json)
    (users : list json) (inactive : list inactive_user)
    (batches : list (list inactive_user)) :
  inventory fromisoformat args w = IO tr (Ok (token, users, inactive)) →
  inactive ≠ [] →
  dry_run args = false →
  chunked inactive (batch_size args) = Ok batches →
  (∀ k payload, accepted (bulk_endpoint w k payload)) →
  let run := main fromisoformat args w in
  bulk_calls (trace run) = map (map entity_of) batches
  ∧ last (trace run) = Some (Stdout Completed)
  ∧ outcome run = Ok tt
  ∧ exit_code (outcome run) = 0.
Proof.
  intros Hinv Hne Hdry Hchunk Hacc run. subst run.
  rewrite (main_dispatching _ _ _ _ _ _ _ _ Hinv Hne Hdry Hchunk). cbv zeta.
  destruct (dispatch_all_accepted w token batches 0 Hacc) as (calls & Hcalls & ->).
  rewrite io_bind_ok. cbn [trace outcome print emit].
  destruct (quiet_inventory fromisoformat args w) as [Hq _].
  rewrite Hinv in Hq. cbn [trace] in Hq.
  split; [|split; [|done]].
  - rewrite !bulk_calls_app, Hq, bulk_calls_stdout, Hcalls. cbn. by rewrite app_nil_r.
  - by rewrite !app_assoc, last_snoc.
Qed.

End MoreProperties.

Lemma no_timestamp_means_inactive_witness :
  select_last_login iso_basic (JObj user_j) (Some "org-1") = Ok None
  ∧ (is_disabled (JObj user_j) = Ok false →
     ∀ threshold inactive,
       classify_user iso_basic (Some "org-1") threshold inactive (JObj user_j)
       = Ok (inactive ++ [record_of user_j None])).
Proof.
  apply (no_timestamp_means_inactive iso_basic user_j (Some "org-1")
           [member "org-1" "last week"; member "org-2" "2024-05-30"]).
  - reflexivity.
  - intros e [->|[->|[]%elem_of_nil]%elem_of_cons]%elem_of_cons; by eexists.
  - intros e [->|[->|[]%elem_of_nil]%elem_of_cons]%elem_of_cons; [done|].
    intros Hconsidered. discriminate Hconsidered.
Defined.

Lemma accepted_run_completes_witness :
  let run := main iso_basic (sample_args 2 false) (sample_world partial_then_ok) in
  bulk_calls (trace run)
  = map (map entity_of) [[record_a; record_c]; [record_e]]
  ∧ last (trace run) = Some (Stdout Completed)
  ∧ outcome run = Ok tt
  ∧ exit_code (outcome run) = 0.
Proof.
  apply (accepted_run_completes iso_basic (sample_args 2 false)
           (sample_world partial_then_ok) sample_trace (JStr "token")
           sample_users [record_a; record_c; record_e]).
  - apply sample_inventory.
  - discriminate.
  - reflexivity.
  - reflexivity.
  - intros [|k] payload; [exists "partial", None; by right|exists "", None; by left].
Defined.
